(** * The drawing canvas of src/components/Canvas.tsx

    A shallow embedding of the [Canvas] component: its stroke capture, its
    undo/redo history, its pinch/pan viewport, the coordinate conversion
    [getCoordinates] and the path projection [renderPath].

    Conventions of the model.
    - A JavaScript number is [NaN] or an exact rational ([number]).
      Arithmetic, [Math.min] and [Math.max] give [NaN] as soon as an
      operand is [NaN], as in the source; on rationals they are exact.
      Every number the component stores (scale, translations, the
      coordinates of a point, a rendered stroke width) can therefore be
      [NaN].  What the platform measures or reports as a length (the window
      size, a bounding rectangle, the position of a touch, the displacement
      of a pan) and the widths of the tools are rationals; the factor of a
      pinch update, a ratio the gesture handler computes, is any number,
      [NaN] included.  The infinities and rounding are not modelled.  The
      only divisor is [scale], which from mount on is [NaN] or between 0.5
      and 3, never 0 (section Viewport).
    - The component's React state ([useState]), its refs ([useRef]) and its
      Reanimated shared values ([useSharedValue]) are the fields of one
      record, [Canvas]; every callback is a function from the state before
      the call to the state after it.  A callback runs against the state of
      the latest render: React re-renders between two events, so the
      [paths], [currentPath] and [tool] a callback closes over are the
      current ones.
    - An array is a list whose head is index 0: [push] appends at the tail
      and [pop] removes the tail. *)

From Stdlib Require Import List String Bool QArith Qminmax Lia Lqa.
From Stdlib Require Import PeanoNat.
Import ListNotations.

Open Scope string_scope.
Open Scope list_scope.
Open Scope Q_scope.

(** ** Numbers *)

(** A JavaScript number. *)
Inductive number :=
| NaN
| Num (q : Q).

Coercion Num : Q >-> number.

Definition nadd (a b : number) : number :=
  match a, b with Num p, Num q => Num (p + q) | _, _ => NaN end.

Definition nsub (a b : number) : number :=
  match a, b with Num p, Num q => Num (p - q) | _, _ => NaN end.

Definition nmul (a b : number) : number :=
  match a, b with Num p, Num q => Num (p * q) | _, _ => NaN end.

Definition ndiv (a b : number) : number :=
  match a, b with Num p, Num q => Num (p / q) | _, _ => NaN end.

Definition nopp (a : number) : number :=
  match a with Num p => Num (- p) | NaN => NaN end.

(** [Math.max] and [Math.min] of two arguments. *)
Definition mathMax (a b : number) : number :=
  match a, b with Num p, Num q => Num (Qmax p q) | _, _ => NaN end.

Definition mathMin (a b : number) : number :=
  match a, b with Num p, Num q => Num (Qmin p q) | _, _ => NaN end.

(** Order: a comparison with [NaN] is false. *)
Definition nle (a b : number) : Prop :=
  match a, b with Num p, Num q => p <= q | _, _ => False end.

Definition nlt (a b : number) : Prop :=
  match a, b with Num p, Num q => p < q | _, _ => False end.

(** The same value: the same rational, or [NaN] on both sides. *)
Definition nsame (a b : number) : Prop :=
  match a, b with
  | Num p, Num q => p == q
  | NaN, NaN => True
  | _, _ => False
  end.

Declare Scope number_scope.
Delimit Scope number_scope with num.
Bind Scope number_scope with number.

Notation "a + b" := (nadd a b) : number_scope.
Notation "a - b" := (nsub a b) : number_scope.
Notation "a * b" := (nmul a b) : number_scope.
Notation "a / b" := (ndiv a b) : number_scope.
Notation "- a" := (nopp a) : number_scope.
Notation "a <= b" := (nle a b) : number_scope.
Notation "a < b" := (nlt a b) : number_scope.
Notation "a <= b <= c" := (nle a b /\ nle b c) : number_scope.
Notation "a == b" := (nsame a b) : number_scope.

(** Unfolds the operations on numbers once their arguments are known to
    be [NaN] or rationals. *)
Ltac num_red :=
  cbv beta iota delta
    [nadd nsub nmul ndiv nopp mathMin mathMax nsame nle nlt] in *.

(** ** Data *)

(** [type Point = { x: number; y: number }] *)
Record Point := mkPoint { x : number; y : number }.

(** ['pen' | 'highlighter' | 'eraser'] *)
Inductive Tool := pen | highlighter | eraser.

(** [type DrawPath = { points; color; width; type }] *)
Record DrawPath := mkDrawPath {
  points : list Point;
  color : string;
  width : Q;
  type : Tool
}.

(** The part of a DOM rectangle that [getCoordinates] reads. *)
Record Rect := mkRect { left : Q; top : Q }.

(** What [element.getBoundingClientRect?.()] can do on the object held by
    [svgRef]: the method is absent (a native view), the call throws, or it
    returns a value that is a rectangle or is falsy. *)
Inductive Element :=
| MethodMissing
| MethodThrows
| MethodReturns (rect : option Rect).

(** [Platform.OS] *)
Inductive OS := web | ios | android.

(** The state of one [Canvas] instance. *)
Record Canvas := mkCanvas {
  paths : list DrawPath;              (* useState<DrawPath[]>([]) *)
  currentPath : option DrawPath;      (* useState<DrawPath | null>(null) *)
  backgroundImage : option string;    (* useState<string | null>(null) *)
  tool : Tool;                        (* useState('pen') *)
  undoStack : list DrawPath;          (* useRef<DrawPath[]>([]) *)
  redoStack : list DrawPath;          (* useRef<DrawPath[]>([]) *)
  svgRef : option Element;            (* useRef<View>(null) *)
  isDrawing : bool;                   (* useRef(false) *)
  isPinching : bool;                  (* useRef(false) *)
  scale : number;                     (* useSharedValue(1) *)
  savedScale : number;                (* useSharedValue(1) *)
  translateX : number;                (* useSharedValue(0) *)
  translateY : number;                (* useSharedValue(0) *)
  savedTranslateX : number;           (* useSharedValue(0) *)
  savedTranslateY : number            (* useSharedValue(0) *)
}.

(** The state at mount. *)
Definition initial : Canvas :=
  mkCanvas [] None None pen [] [] None false false 1 1 0 0 0 0.

(** Field updates, one per state cell the callbacks assign. *)
Definition setPaths (v : list DrawPath) (s : Canvas) : Canvas :=
  mkCanvas v (currentPath s) (backgroundImage s) (tool s) (undoStack s)
    (redoStack s) (svgRef s) (isDrawing s) (isPinching s) (scale s)
    (savedScale s) (translateX s) (translateY s) (savedTranslateX s)
    (savedTranslateY s).

Definition setCurrentPath (v : option DrawPath) (s : Canvas) : Canvas :=
  mkCanvas (paths s) v (backgroundImage s) (tool s) (undoStack s)
    (redoStack s) (svgRef s) (isDrawing s) (isPinching s) (scale s)
    (savedScale s) (translateX s) (translateY s) (savedTranslateX s)
    (savedTranslateY s).

Definition setBackgroundImage (v : option string) (s : Canvas) : Canvas :=
  mkCanvas (paths s) (currentPath s) v (tool s) (undoStack s)
    (redoStack s) (svgRef s) (isDrawing s) (isPinching s) (scale s)
    (savedScale s) (translateX s) (translateY s) (savedTranslateX s)
    (savedTranslateY s).

Definition setTool (v : Tool) (s : Canvas) : Canvas :=
  mkCanvas (paths s) (currentPath s) (backgroundImage s) v (undoStack s)
    (redoStack s) (svgRef s) (isDrawing s) (isPinching s) (scale s)
    (savedScale s) (translateX s) (translateY s) (savedTranslateX s)
    (savedTranslateY s).

Definition setUndoStack (v : list DrawPath) (s : Canvas) : Canvas :=
  mkCanvas (paths s) (currentPath s) (backgroundImage s) (tool s) v
    (redoStack s) (svgRef s) (isDrawing s) (isPinching s) (scale s)
    (savedScale s) (translateX s) (translateY s) (savedTranslateX s)
    (savedTranslateY s).

Definition setRedoStack (v : list DrawPath) (s : Canvas) : Canvas :=
  mkCanvas (paths s) (currentPath s) (backgroundImage s) (tool s)
    (undoStack s) v (svgRef s) (isDrawing s) (isPinching s) (scale s)
    (savedScale s) (translateX s) (translateY s) (savedTranslateX s)
    (savedTranslateY s).

Definition setSvgRef (v : option Element) (s : Canvas) : Canvas :=
  mkCanvas (paths s) (currentPath s) (backgroundImage s) (tool s)
    (undoStack s) (redoStack s) v (isDrawing s) (isPinching s) (scale s)
    (savedScale s) (translateX s) (translateY s) (savedTranslateX s)
    (savedTranslateY s).

Definition setIsDrawing (v : bool) (s : Canvas) : Canvas :=
  mkCanvas (paths s) (currentPath s) (backgroundImage s) (tool s)
    (undoStack s) (redoStack s) (svgRef s) v (isPinching s) (scale s)
    (savedScale s) (translateX s) (translateY s) (savedTranslateX s)
    (savedTranslateY s).

Definition setIsPinching (v : bool) (s : Canvas) : Canvas :=
  mkCanvas (paths s) (currentPath s) (backgroundImage s) (tool s)
    (undoStack s) (redoStack s) (svgRef s) (isDrawing s) v (scale s)
    (savedScale s) (translateX s) (translateY s) (savedTranslateX s)
    (savedTranslateY s).

Definition setScale (v : number) (s : Canvas) : Canvas :=
  mkCanvas (paths s) (currentPath s) (backgroundImage s) (tool s)
    (undoStack s) (redoStack s) (svgRef s) (isDrawing s) (isPinching s) v
    (savedScale s) (translateX s) (translateY s) (savedTranslateX s)
    (savedTranslateY s).

Definition setSavedScale (v : number) (s : Canvas) : Canvas :=
  mkCanvas (paths s) (currentPath s) (backgroundImage s) (tool s)
    (undoStack s) (redoStack s) (svgRef s) (isDrawing s) (isPinching s)
    (scale s) v (translateX s) (translateY s) (savedTranslateX s)
    (savedTranslateY s).

Definition setTranslate (vx vy : number) (s : Canvas) : Canvas :=
  mkCanvas (paths s) (currentPath s) (backgroundImage s) (tool s)
    (undoStack s) (redoStack s) (svgRef s) (isDrawing s) (isPinching s)
    (scale s) (savedScale s) vx vy (savedTranslateX s) (savedTranslateY s).

Definition setSavedTranslate (vx vy : number) (s : Canvas) : Canvas :=
  mkCanvas (paths s) (currentPath s) (backgroundImage s) (tool s)
    (undoStack s) (redoStack s) (svgRef s) (isDrawing s) (isPinching s)
    (scale s) (savedScale s) (translateX s) (translateY s) vx vy.

(** ** Arrays *)

(** [Array.prototype.pop]: the array without its last element, and that
    element; [None] on the empty array (where JavaScript gives
    [undefined] and leaves the array empty). *)
Fixpoint pop {A : Type} (l : list A) : option (list A * A) :=
  match l with
  | [] => None
  | a :: l' =>
      match pop l' with
      | None => Some ([], a)
      | Some (init, z) => Some (a :: init, z)
      end
  end.

(** [Array.prototype.push] of one element. *)
Definition push {A : Type} (l : list A) (a : A) : list A := l ++ [a].

(** [Array.prototype.reduce] with an initial value: the callback receives
    the accumulator, the element and its index. *)
Fixpoint reduceFrom {A B : Type} (f : B -> A -> nat -> B) (index : nat)
    (l : list A) (acc : B) : B :=
  match l with
  | [] => acc
  | a :: l' => reduceFrom f (S index) l' (f acc a index)
  end.

Definition reduce {A B : Type} (f : B -> A -> nat -> B) (l : list A)
    (init : B) : B :=
  reduceFrom f 0 l init.

(** ** History: the imperative handle (lines 56-77) *)

(** [undo]: on a non-empty [paths], copy it, pop the copy, push the removed
    path on [undoStack.current] and store the copy. *)
Definition undo (s : Canvas) : Canvas :=
  match pop (paths s) with
  | Some (newPaths, removedPath) =>
      setPaths newPaths (setUndoStack (push (undoStack s) removedPath) s)
  | None => s
  end.

(** [redo]: on a non-empty [undoStack.current], pop it and append the
    popped path to [paths]. *)
Definition redo (s : Canvas) : Canvas :=
  match pop (undoStack s) with
  | Some (rest, pathToRestore) =>
      setPaths (paths s ++ [pathToRestore]) (setUndoStack rest s)
  | None => s
  end.

(** ** The component in its host *)

Section Host.

(** [Platform.OS], and the window size read once when the module loads
    ([Dimensions.get('window')]). *)
Variable PlatformOS : OS.
Variables SCREEN_WIDTH SCREEN_HEIGHT : Q.

(** The conversion of a number to text that a template literal applies
    ([`${point.x}`]). *)
Variable numToString : number -> string.

(** *** Coordinates (lines 79-112) *)

(** [getCoordinates]: starts from the raw point and overwrites both
    coordinates only on the web, with a mounted element whose
    [getBoundingClientRect] exists, does not throw and returns a rectangle.
    The [catch] branch only logs. *)
Definition getCoordinates (s : Canvas) (ex ey : Q) : Point :=
  let point := mkPoint ex ey in
  match PlatformOS with
  | web =>
      match svgRef s with
      | Some element =>
          match element with
          | MethodReturns (Some rect) =>
              mkPoint
                (mathMax 0
                   (mathMin ((ex - left rect - translateX s) / scale s)
                      SCREEN_WIDTH))
                (mathMax 0
                   (mathMin ((ey - top rect - translateY s) / scale s)
                      SCREEN_HEIGHT))
          | MethodReturns None => point
          | MethodMissing => point
          | MethodThrows => point
          end
      | None => point
      end
  | _ => point
  end.

(** *** The draw gesture (lines 114-158) *)

Definition toolColor (t : Tool) : string :=
  match t with
  | highlighter => "rgba(255, 255, 0, 0.5)"
  | eraser => "white"
  | pen => "black"
  end.

Definition toolWidth (t : Tool) : Q :=
  match t with
  | highlighter => 20
  | eraser => 30
  | pen => 2
  end.

Definition drawStart (ex ey : Q) (s : Canvas) : Canvas :=
  if isPinching s then s
  else
    let s1 := setIsDrawing true s in
    let point := getCoordinates s1 ex ey in
    let newPath :=
      mkDrawPath [point] (toolColor (tool s1)) (toolWidth (tool s1))
        (tool s1) in
    setCurrentPath (Some newPath) s1.

Definition drawUpdate (ex ey : Q) (s : Canvas) : Canvas :=
  match isDrawing s, currentPath s, isPinching s with
  | true, Some _, false =>
      let point := getCoordinates s ex ey in
      setCurrentPath
        (match currentPath s with
         | None => None
         | Some prev =>
             Some (mkDrawPath (points prev ++ [point]) (color prev)
                     (width prev) (type prev))
         end) s
  | _, _, _ => s
  end.

Definition drawEnd (s : Canvas) : Canvas :=
  match isDrawing s, currentPath s with
  | true, Some cur =>
      setRedoStack []
        (setIsDrawing false
           (setCurrentPath None (setPaths (paths s ++ [cur]) s)))
  | _, _ => s
  end.

Definition drawFinalize (s : Canvas) : Canvas :=
  setCurrentPath None (setIsDrawing false s).

(** *** The pinch gesture (lines 160-170) *)

Definition pinchStart (s : Canvas) : Canvas :=
  setSavedScale (scale s) (setIsPinching true s).

(** The update stores the clamped product; [Math.max] and [Math.min]
    hand a [NaN] product through. *)
Definition pinchUpdate (eventScale : number) (s : Canvas) : Canvas :=
  setScale (mathMin (mathMax (savedScale s * eventScale) (1 # 2)) 3) s.

Definition pinchEnd (s : Canvas) : Canvas :=
  setIsPinching false s.

(** *** The two-finger pan gesture (lines 172-192) *)

Definition panStart (s : Canvas) : Canvas :=
  setSavedTranslate (translateX s) (translateY s) s.

Definition panUpdate (translationX translationY : Q) (s : Canvas) : Canvas :=
  setTranslate (savedTranslateX s + translationX)
    (savedTranslateY s + translationY) s.

(** [withSpring] animates the shared value to its argument; the model
    stores the value the animation settles on. *)
Definition panEnd (s : Canvas) : Canvas :=
  let maxTranslateX := (((scale s - 1) * SCREEN_WIDTH) / 2)%num in
  let maxTranslateY := (((scale s - 1) * SCREEN_HEIGHT) / 2)%num in
  setTranslate
    (mathMin (mathMax (translateX s) (- maxTranslateX)) maxTranslateX)
    (mathMin (mathMax (translateY s) (- maxTranslateY)) maxTranslateY) s.

(** *** Events *)

(** What the host can do to a mounted canvas: call the imperative handle,
    deliver a gesture callback, or (re)attach the [Svg] ref. *)
Inductive Event :=
| Undo
| Redo
| SetTool (t : Tool)
| SetBackgroundImage (uri : option string)
| DrawStart (ex ey : Q)
| DrawUpdate (ex ey : Q)
| DrawEnd
| DrawFinalize
| PinchStart
| PinchUpdate (eventScale : number)
| PinchEnd
| PanStart
| PanUpdate (translationX translationY : Q)
| PanEnd
| Attach (element : option Element).

Definition step (s : Canvas) (e : Event) : Canvas :=
  match e with
  | Undo => undo s
  | Redo => redo s
  | SetTool t => setTool t s
  | SetBackgroundImage uri => setBackgroundImage uri s
  | DrawStart ex ey => drawStart ex ey s
  | DrawUpdate ex ey => drawUpdate ex ey s
  | DrawEnd => drawEnd s
  | DrawFinalize => drawFinalize s
  | PinchStart => pinchStart s
  | PinchUpdate eventScale => pinchUpdate eventScale s
  | PinchEnd => pinchEnd s
  | PanStart => panStart s
  | PanUpdate tx ty => panUpdate tx ty s
  | PanEnd => panEnd s
  | Attach element => setSvgRef element s
  end.

(** The state after a sequence of events, oldest first. *)
Definition run (s : Canvas) (events : list Event) : Canvas :=
  fold_left step events s.

(** *** Rendering (lines 207-228) *)

(** The props of the [SvgPath] element that [renderPath] returns. *)
Record SvgPath := mkSvgPath {
  d : string;
  stroke : string;
  strokeWidth : number;
  strokeLinecap : string;
  strokeLinejoin : string;
  fill : string
}.

(** The callback of the [reduce] in [renderPath]. *)
Definition pathData (acc : string) (point : Point) (index : nat) : string :=
  match index with
  | O => "M " ++ numToString (x point) ++ " " ++ numToString (y point)
  | S _ =>
      acc ++ " L " ++ numToString (x point) ++ " " ++ numToString (y point)
  end.

(** [renderPath]: nothing for a path without points, else one [SvgPath]. *)
Definition renderPath (s : Canvas) (path : DrawPath) : option SvgPath :=
  match points path with
  | [] => None
  | _ :: _ =>
      Some (mkSvgPath (reduce pathData (points path) EmptyString) (color path)
              (width path / scale s) "round" "round" "none")
  end.

(** The children of the [G] element: the committed paths in order, then
    the path in progress. *)
Definition renderAll (s : Canvas) : list (option SvgPath) :=
  map (renderPath s) (paths s) ++
  match currentPath s with
  | Some cur => [renderPath s cur]
  | None => []
  end.

(** *** The polyline the renderer is meant to receive *)

(** A path command of the polyline. *)
Inductive Command :=
| MoveTo (p : Point)
| LineTo (p : Point).

(** Move to the first point, then a line to each later point, in order;
    nothing closes the path. *)
Definition polyline (first : Point) (rest : list Point) : list Command :=
  MoveTo first :: map LineTo rest.

(** The SVG text of a command list: commands separated by one space. *)
Definition commandText (c : Command) : string :=
  match c with
  | MoveTo p => "M " ++ numToString (x p) ++ " " ++ numToString (y p)
  | LineTo p => "L " ++ numToString (x p) ++ " " ++ numToString (y p)
  end.

Fixpoint commandsText (cs : list Command) : string :=
  match cs with
  | [] => EmptyString
  | [c] => commandText c
  | c :: cs' => commandText c ++ " " ++ commandsText cs'
  end.

End Host.

(** ** Vocabulary of the properties *)

(** The zoom range; [NaN] is not in it. *)
Definition inRange (n : number) : Prop := ((1 # 2) <= n <= 3)%num.

(** A rational clamped to the interval from [lo] to [hi]. *)
Definition clampQ (lo hi v : Q) : Q :=
  if Qlt_le_dec v lo then lo
  else if Qlt_le_dec hi v then hi
  else v.

(** A number clamped to the interval from [lo] to [hi]; there is nothing
    to clamp when one of the three is [NaN]. *)
Definition clampTo (lo hi v : number) : number :=
  match lo, hi, v with
  | Num l, Num h, Num q => Num (clampQ l h q)
  | _, _, _ => NaN
  end.

(** Pinch updates whose factor is a rational. *)
Definition finiteFactor (e : Event) : bool :=
  match e with
  | PinchUpdate NaN => false
  | _ => true
  end.






(** Events that neither start nor finish a draw gesture. *)
Definition keepsStroke (e : Event) : bool :=
  match e with
  | DrawStart _ _ | DrawEnd | DrawFinalize => false
  | _ => true
  end.

(** Sample strokes and states. *)
Definition strokeA : DrawPath :=
  mkDrawPath [mkPoint 1 1; mkPoint 2 3] "black" 2 pen.

Definition strokeB : DrawPath :=
  mkDrawPath [mkPoint 5 5; mkPoint 6 6] "black" 2 pen.

Definition oneStroke : Canvas := setPaths [strokeA] initial.

Definition measuredAt (r : Rect) (zoom : number) : Canvas :=
  setSvgRef (Some (MethodReturns (Some r))) (setScale zoom initial).

(** ** The screen of src/app/(tabs)/index.tsx *)

(** An asset of the image picker, and what
    [ImagePicker.launchImageLibraryAsync] resolves to. *)
Record Asset := mkAsset { uri : string }.

Record ImagePickerResult := mkImagePickerResult {
  canceled : bool;
  assets : list Asset
}.

(** [DrawScreen]: its [selectedTool] state and [canvasRef], the handle of
    the [Canvas] child ([None] while no canvas is mounted). *)
Record DrawScreen := mkDrawScreen {
  selectedTool : Tool;               (* useState('pen') *)
  canvasRef : option Canvas          (* useRef<CanvasRef>(null) *)
}.

Definition initialScreen : DrawScreen := mkDrawScreen pen (Some initial).

(** [canvasRef.current?.f()] *)
Definition onCanvas (f : Canvas -> Canvas) (ds : DrawScreen) : DrawScreen :=
  mkDrawScreen (selectedTool ds) (option_map f (canvasRef ds)).

(** [handleToolChange] (lines 24-27) *)
Definition handleToolChange (t : Tool) (ds : DrawScreen) : DrawScreen :=
  onCanvas (setTool t) (mkDrawScreen t (canvasRef ds)).

(** [pickImage] (lines 12-22), from the point where the picker has
    resolved to [result]. *)
Definition pickImage (result : ImagePickerResult) (ds : DrawScreen)
    : DrawScreen :=
  if negb (canceled result) then
    match assets result with
    | first :: _ => onCanvas (setBackgroundImage (Some (uri first))) ds
    | [] => ds
    end
  else ds.

(** The buttons of the toolbar, and a gesture on the canvas below it. *)
Inductive ScreenEvent :=
| PressTool (t : Tool)
| PressImage (result : ImagePickerResult)
| PressUndo
| PressRedo
| Touch (e : Event).

Definition stepScreen (os : OS) (W H : Q) (ds : DrawScreen)
    (e : ScreenEvent) : DrawScreen :=
  match e with
  | PressTool t => handleToolChange t ds
  | PressImage result => pickImage result ds
  | PressUndo => onCanvas undo ds
  | PressRedo => onCanvas redo ds
  | Touch g => onCanvas (fun c => step os W H c g) ds
  end.

Definition runScreen (os : OS) (W H : Q) (ds : DrawScreen)
    (events : list ScreenEvent) : DrawScreen :=
  fold_left (stepScreen os W H) events ds.

(** ** Vocabulary of the further properties *)

(** The update events of a list of samples, and of a list of pan
    translations. *)
Definition updatesOf (samples : list (Q * Q)) : list Event :=
  map (fun q => DrawUpdate (fst q) (snd q)) samples.

Definition panUpdatesOf (moves : list (Q * Q)) : list Event :=
  map (fun q => PanUpdate (fst q) (snd q)) moves.

(** Everything [undo] and [redo] move around: the committed paths, then
    the undone ones, most recently undone first. *)
Definition history (s : Canvas) : list DrawPath :=
  paths s ++ rev (undoStack s).

(** The bound that [panEnd] computes for each axis. *)
Definition maxTranslate (extent : Q) (s : Canvas) : number :=
  ((scale s - 1) * extent) / 2.

(** A path as the draw gesture builds it: at least one point, and the
    colour and width of its tool. *)
Definition wellFormedPath (p : DrawPath) : Prop :=
  points p <> [] /\
  color p = toolColor (type p) /\
  width p = toolWidth (type p).

Definition wellFormed (s : Canvas) : Prop :=
  Forall wellFormedPath (paths s) /\
  Forall wellFormedPath (undoStack s) /\
  (forall p, currentPath s = Some p -> wellFormedPath p).

(** The drawing flag is up exactly when a path is in progress. *)
Definition flagsAgree (s : Canvas) : Prop :=
  isDrawing s = true <-> currentPath s <> None.

(** Classes of events. *)
Definition isDrawEnd (e : Event) : bool :=
  match e with DrawEnd => true | _ => false end.

Definition changesPaths (e : Event) : bool :=
  match e with DrawEnd | Undo | Redo => true | _ => false end.

Definition isViewportGesture (e : Event) : bool :=
  match e with
  | PinchStart | PinchUpdate _ | PinchEnd
  | PanStart | PanUpdate _ _ | PanEnd => true
  | _ => false
  end.

Definition changesViewport (e : Event) : bool :=
  match e with
  | PinchUpdate _ | PanUpdate _ _ | PanEnd => true
  | _ => false
  end.

Definition isGesture (e : Event) : bool :=
  match e with
  | Undo | Redo | SetTool _ | SetBackgroundImage _ | Attach _ => false
  | _ => true
  end.

Definition touchesGestures (e : ScreenEvent) : bool :=
  match e with
  | Touch g => isGesture g
  | _ => true
  end.

(** The toolbar highlights the tool the canvas draws with. *)
Definition inSync (ds : DrawScreen) : Prop :=
  match canvasRef ds with
  | Some c => selectedTool ds = tool c
  | None => True
  end.

(** ** Arrays: [pop] and [push] *)

Lemma pop_push {A : Type} (l : list A) (a : A) :
  pop (push l a) = Some (l, a).
Proof.
  unfold push. induction l as [|b l IH]; simpl.
  - reflexivity.
  - rewrite IH. reflexivity.
Qed.

Lemma pop_Some {A : Type} (l init : list A) (z : A) :
  pop l = Some (init, z) -> l = init ++ [z].
Proof.
  revert init z. induction l as [|a l IH]; intros init z; simpl.
  - discriminate.
  - destruct (pop l) as [[i w]|] eqn:E.
    + intros H. injection H as <- <-. rewrite (IH i w eq_refl). reflexivity.
    + intros H. injection H as <- <-.
      destruct l as [|b l]; [reflexivity|].
      simpl in E. destruct (pop l) as [[? ?]|]; discriminate.
Qed.

Lemma pop_None {A : Type} (l : list A) : pop l = None <-> l = [].
Proof.
  split.
  - destruct l as [|a l]; [reflexivity|]. simpl.
    destruct (pop l) as [[? ?]|]; discriminate.
  - intros ->. reflexivity.
Qed.

Lemma pop_nonempty {A : Type} (l : list A) :
  l <> [] -> exists init z, pop l = Some (init, z) /\ l = init ++ [z].
Proof.
  intros Hne. destruct (pop l) as [[init z]|] eqn:E.
  - exists init, z. split; [reflexivity | apply pop_Some, E].
  - apply pop_None in E. contradiction.
Qed.

(** ** Traces *)

Lemma run_app (os : OS) (W H : Q) (s : Canvas) (evs1 evs2 : list Event) :
  run os W H s (evs1 ++ evs2) = run os W H (run os W H s evs1) evs2.
Proof. unfold run. apply fold_left_app. Qed.

Lemma run_cons (os : OS) (W H : Q) (s : Canvas) (e : Event)
    (evs : list Event) :
  run os W H s (e :: evs) = run os W H (step os W H s e) evs.
Proof. reflexivity. Qed.

(** ** History *)

Lemma undo_nonempty (s : Canvas) (init : list DrawPath) (removed : DrawPath) :
  paths s = init ++ [removed] ->
  undo s = setPaths init (setUndoStack (undoStack s ++ [removed]) s).
Proof.
  intros Hp. unfold undo. rewrite Hp.
  change (init ++ [removed]) with (push init removed).
  rewrite pop_push. reflexivity.
Qed.

Lemma redo_nonempty (s : Canvas) (rest : list DrawPath) (restored : DrawPath) :
  undoStack s = rest ++ [restored] ->
  redo s = setPaths (paths s ++ [restored]) (setUndoStack rest s).
Proof.
  intros Hu. unfold redo. rewrite Hu.
  change (rest ++ [restored]) with (push rest restored).
  rewrite pop_push. reflexivity.
Qed.

(** [undo] then [redo] gives back the very state, not only its paths. *)
Lemma redo_undo_state (s : Canvas) : paths s <> [] -> redo (undo s) = s.
Proof.
  intros Hne. destruct (pop_nonempty (paths s) Hne) as (init & z & _ & Hp).
  rewrite (undo_nonempty s init z Hp).
  rewrite (redo_nonempty _ (undoStack s) z); [|reflexivity].
  destruct s; simpl in *. subst. reflexivity.
Qed.

(** C3. With at least one committed path, [undo] immediately followed by
    [redo] leaves [paths] as it was: [undo] removes the last path, and
    [redo] puts that same path (same points, colour, width and type) back
    at the tail. *)
Theorem undo_redo_roundtrip (s : Canvas) :
  paths s <> [] ->
  paths (redo (undo s)) = paths s /\
  exists init removed,
    paths s = init ++ [removed] /\
    paths (undo s) = init /\
    paths (redo (undo s)) = init ++ [removed].
Proof.
  intros Hne. split.
  - rewrite (redo_undo_state s Hne). reflexivity.
  - destruct (pop_nonempty (paths s) Hne) as (init & z & _ & Hp).
    exists init, z. split; [exact Hp|]. split.
    + rewrite (undo_nonempty s init z Hp). reflexivity.
    + rewrite (redo_undo_state s Hne). exact Hp.
Qed.

Lemma undo_redo_roundtrip_witness :
  paths oneStroke <> [] /\ paths (redo (undo oneStroke)) = paths oneStroke.
Proof.
  assert (Hne : paths oneStroke <> []) by (simpl; discriminate).
  split; [exact Hne | exact (proj1 (undo_redo_roundtrip oneStroke Hne))].
Defined.

(** C5. [undo] with no committed path, and [redo] with nothing to restore
    (the stack [undo] pushes on, [undoStack], is empty), return the state
    they were given: every field is unchanged.  Both are total functions,
    so no error is raised. *)
Theorem undo_redo_noop (s : Canvas) :
  (paths s = [] -> undo s = s) /\ (undoStack s = [] -> redo s = s).
Proof.
  split; intros Hempty.
  - unfold undo. rewrite Hempty. reflexivity.
  - unfold redo. rewrite Hempty. reflexivity.
Qed.

Lemma undo_redo_noop_witness :
  paths initial = [] /\ undoStack initial = [] /\
  undo initial = initial /\ redo initial = initial.
Proof.
  split; [reflexivity|]. split; [reflexivity|]. split.
  - exact (proj1 (undo_redo_noop initial) eq_refl).
  - exact (proj2 (undo_redo_noop initial) eq_refl).
Defined.

(** Committing a stroke empties [redoStack]; it leaves [undoStack], the
    stack [redo] reads, as it was. *)
Lemma drawEnd_undoStack (s : Canvas) : undoStack (drawEnd s) = undoStack s.
Proof.
  unfold drawEnd. destruct (isDrawing s), (currentPath s); reflexivity.
Qed.

(** After an undo, a stroke drawn and committed does not stop [redo] from
    restoring the undone path: it comes back behind the new stroke. *)
Lemma redo_after_commit (os : OS) (W H : Q) (s : Canvas)
    (init : list DrawPath) (removed : DrawPath) (ex ey : Q) :
  paths s = init ++ [removed] ->
  isPinching s = false ->
  exists new,
    paths (run os W H s [Undo; DrawStart ex ey; DrawEnd]) = init ++ [new] /\
    paths (run os W H s [Undo; DrawStart ex ey; DrawEnd; Redo]) =
      (init ++ [new]) ++ [removed].
Proof.
  intros Hp Hpinch.
  change [Undo; DrawStart ex ey; DrawEnd; Redo]
    with ([Undo; DrawStart ex ey; DrawEnd] ++ [Redo]).
  rewrite run_app.
  unfold run at 1 3. simpl fold_left.
  rewrite (undo_nonempty s init removed Hp).
  unfold drawStart. simpl isPinching. rewrite Hpinch.
  cbv zeta. unfold drawEnd. simpl.
  eexists. split; [reflexivity|].
  unfold redo. simpl undoStack.
  change (undoStack s ++ [removed]) with (push (undoStack s) removed).
  rewrite pop_push. reflexivity.
Qed.

(** C1. After [undo], a new stroke that is started and committed should
    make [redo] a no-op.  The commit empties [redoStack], but [redo] pops
    [undoStack], which the commit leaves alone: with [strokeA] committed,
    undoing it, drawing [strokeB] and calling [redo] changes [paths] from
    [strokeB] alone to [strokeB] followed by the undone [strokeA]. *)
Theorem redo_survives_new_stroke :
  let before :=
    run ios 100 200 oneStroke
      [Undo; DrawStart 5 5; DrawUpdate 6 6; DrawEnd] in
  paths before = [strokeB] /\
  redoStack before = [] /\
  undoStack before = [strokeA] /\
  paths (redo before) = [strokeB; strokeA] /\
  redo before <> before.
Proof.
  cbv zeta. repeat split. intros Heq.
  apply (f_equal paths) in Heq. discriminate Heq.
Qed.

(** ** Stroke capture *)

(** C6. A draw-gesture start that the pinch flag does not suppress creates
    the path in progress with exactly one point, the converted start
    point, and the style of the active tool: ['black'] and width 2 for the
    pen, ['rgba(255, 255, 0, 0.5)'] (yellow at half alpha) and width 20 for
    the highlighter, ['white'] and width 30 for the eraser. *)
Theorem drawStart_tool_style (os : OS) (W H : Q) (s : Canvas) (ex ey : Q) :
  isPinching s = false ->
  exists created,
    currentPath (drawStart os W H ex ey s) = Some created /\
    points created = [getCoordinates os W H s ex ey] /\
    type created = tool s /\
    match tool s with
    | pen => color created = "black" /\ width created = 2
    | highlighter =>
        color created = "rgba(255, 255, 0, 0.5)" /\ width created = 20
    | eraser => color created = "white" /\ width created = 30
    end.
Proof.
  intros Hpinch. unfold drawStart. rewrite Hpinch. cbv zeta.
  eexists. split; [reflexivity|]. simpl.
  split; [reflexivity|]. split; [reflexivity|].
  destruct (tool s); split; reflexivity.
Qed.

Lemma drawStart_tool_style_witness :
  isPinching (setTool highlighter initial) = false /\
  exists created,
    currentPath (drawStart ios 100 200 7 9 (setTool highlighter initial)) =
      Some created /\
    points created = [mkPoint 7 9] /\
    color created = "rgba(255, 255, 0, 0.5)" /\ width created = 20.
Proof.
  split; [reflexivity|].
  destruct (drawStart_tool_style ios 100 200 (setTool highlighter initial)
              7 9 eq_refl) as (created & Hcur & Hpts & _ & Hstyle).
  exists created. split; [exact Hcur|]. split; [exact Hpts|].
  exact Hstyle.
Defined.

(** An event that neither starts nor finishes a draw gesture keeps the
    path in progress, with its style, and can only add points to it. *)
Lemma step_keeps_stroke (os : OS) (W H : Q) (s : Canvas) (e : Event)
    (p : DrawPath) :
  keepsStroke e = true ->
  currentPath s = Some p ->
  exists p',
    currentPath (step os W H s e) = Some p' /\
    color p' = color p /\ width p' = width p /\ type p' = type p /\
    exists more, points p' = points p ++ more.
Proof.
  intros Hk Hcur.
  assert (Hsame : exists p', Some p = Some p' /\
            color p' = color p /\ width p' = width p /\ type p' = type p /\
            exists more, points p' = points p ++ more).
  { exists p. repeat split. exists []. rewrite app_nil_r. reflexivity. }
  destruct e; try discriminate Hk; simpl; try (rewrite Hcur; exact Hsame).
  - unfold undo. destruct (pop (paths s)) as [[? ?]|]; simpl;
      rewrite Hcur; exact Hsame.
  - unfold redo. destruct (pop (undoStack s)) as [[? ?]|]; simpl;
      rewrite Hcur; exact Hsame.
  - unfold drawUpdate. rewrite Hcur.
    destruct (isDrawing s), (isPinching s); simpl;
      try (rewrite Hcur; exact Hsame).
    eexists. split; [reflexivity|]. simpl. repeat split.
    eexists. reflexivity.
Qed.

Lemma run_keeps_stroke (os : OS) (W H : Q) (evs : list Event) :
  forall (s : Canvas) (p : DrawPath),
  forallb keepsStroke evs = true ->
  currentPath s = Some p ->
  exists p',
    currentPath (run os W H s evs) = Some p' /\
    color p' = color p /\ width p' = width p /\ type p' = type p /\
    exists more, points p' = points p ++ more.
Proof.
  induction evs as [|e evs IH]; intros s p Hall Hcur.
  - exists p. split; [exact Hcur|]. repeat split.
    exists []. rewrite app_nil_r. reflexivity.
  - simpl in Hall. apply andb_prop in Hall. destruct Hall as [He Hall].
    destruct (step_keeps_stroke os W H s e p He Hcur)
      as (p1 & Hcur1 & Hc1 & Hw1 & Ht1 & more1 & Hm1).
    destruct (IH (step os W H s e) p1 Hall Hcur1)
      as (p2 & Hcur2 & Hc2 & Hw2 & Ht2 & more2 & Hm2).
    exists p2. rewrite run_cons. split; [exact Hcur2|].
    split; [congruence|]. split; [congruence|]. split; [congruence|].
    exists (more1 ++ more2). rewrite Hm2, Hm1, app_assoc. reflexivity.
Qed.

(** C7. [setTool] during a capture does not touch the path in progress;
    whatever follows short of the gesture's start, end or finalize (point
    appends, further tool changes, pinch, pan, undo, redo) keeps its
    colour, width and type and only appends points; the next stroke that
    starts takes the style of the new tool. *)
Theorem setTool_leaves_stroke (os : OS) (W H : Q) (s : Canvas)
    (p : DrawPath) (t : Tool) :
  currentPath s = Some p ->
  currentPath (setTool t s) = Some p /\
  (forall evs : list Event,
     forallb keepsStroke evs = true ->
     exists p',
       currentPath (run os W H (setTool t s) evs) = Some p' /\
       color p' = color p /\ width p' = width p /\ type p' = type p /\
       exists more, points p' = points p ++ more) /\
  (forall ex ey : Q,
     isPinching s = false ->
     currentPath (drawStart os W H ex ey (setTool t s)) =
       Some (mkDrawPath [getCoordinates os W H s ex ey]
               (toolColor t) (toolWidth t) t)).
Proof.
  intros Hcur.
  assert (Hset : currentPath (setTool t s) = Some p) by exact Hcur.
  split; [exact Hset|]. split.
  - intros evs Hall. exact (run_keeps_stroke os W H evs _ p Hall Hset).
  - intros ex ey Hpinch. unfold drawStart. simpl isPinching.
    rewrite Hpinch. reflexivity.
Qed.

Lemma setTool_leaves_stroke_witness :
  let s := drawStart ios 100 200 1 1 initial in
  let p := mkDrawPath [mkPoint 1 1] "black" 2 pen in
  currentPath s = Some p /\
  currentPath (setTool highlighter s) = Some p /\
  exists p',
    currentPath
      (run ios 100 200 (setTool highlighter s) [DrawUpdate 2 2]) = Some p' /\
    color p' = "black" /\ width p' = 2 /\ type p' = pen.
Proof.
  cbv zeta.
  pose proof (setTool_leaves_stroke ios 100 200
                (drawStart ios 100 200 1 1 initial)
                (mkDrawPath [mkPoint 1 1] "black" 2 pen) highlighter
                eq_refl) as (Hset & Hrun & _).
  split; [reflexivity|]. split; [exact Hset|].
  destruct (Hrun [DrawUpdate 2 2] eq_refl)
    as (p' & Hcur & Hc & Hw & Ht & _).
  exists p'. repeat split; assumption.
Defined.

(** C10. Whatever happened before, the finalize callback of the draw
    gesture leaves no path in progress and the drawing flag down. *)
Theorem drawFinalize_clears (os : OS) (W H : Q) (s : Canvas)
    (evs : list Event) :
  currentPath (run os W H s (evs ++ [DrawFinalize])) = None /\
  isDrawing (run os W H s (evs ++ [DrawFinalize])) = false.
Proof.
  rewrite run_app. split; reflexivity.
Qed.

(** While the pinch flag is up, the start and update callbacks of the draw
    gesture return at their guard: no stroke starts and no point is
    appended. *)
Lemma pinching_suppresses_draw (os : OS) (W H : Q) (s : Canvas) (ex ey : Q) :
  isPinching s = true ->
  drawStart os W H ex ey s = s /\ drawUpdate os W H ex ey s = s.
Proof.
  intros Hpinch. unfold drawStart, drawUpdate. rewrite Hpinch.
  destruct (isDrawing s), (currentPath s); split; reflexivity.
Qed.

(** The end callback has no such guard: with a path in progress it
    commits it, pinch or no pinch. *)
Lemma drawEnd_commits (s : Canvas) (cur : DrawPath) :
  isDrawing s = true ->
  currentPath s = Some cur ->
  paths (drawEnd s) = paths s ++ [cur].
Proof.
  intros Hd Hcur. unfold drawEnd. rewrite Hd, Hcur. reflexivity.
Qed.

(** C2. A pinch that starts during a draw gesture should cancel the
    stroke in progress so that it is never committed.  [pinchStart] only
    raises the flag; the update callback then ignores the samples, but the
    end callback does not look at the flag and commits the stroke as it
    stood when the pinch began. *)
Theorem pinch_does_not_cancel_stroke :
  let pinched :=
    run ios 100 200 initial [DrawStart 5 5; DrawUpdate 6 6; PinchStart] in
  isPinching pinched = true /\
  currentPath pinched = Some strokeB /\
  currentPath (run ios 100 200 pinched [DrawUpdate 7 7]) = Some strokeB /\
  paths (run ios 100 200 pinched [DrawUpdate 7 7; DrawEnd]) = [strokeB] /\
  paths (run ios 100 200 pinched [DrawUpdate 7 7; DrawEnd; DrawFinalize])
    = [strokeB].
Proof.
  cbv zeta. repeat split.
Qed.

(** ** Numbers: what the order says *)

Lemma inRange_not_NaN (n : number) : inRange n -> n <> NaN.
Proof. intros [Hlo _] ->. exact Hlo. Qed.

(** ** Viewport *)

Lemma pinch_clamp_inRange (v : Q) :
  inRange (mathMin (mathMax v (1 # 2)) 3).
Proof.
  unfold inRange, nle, mathMin, mathMax. split.
  - apply Q.min_glb.
    + apply Q.le_max_r.
    + unfold Qle; simpl; lia.
  - apply Q.le_min_r.
Qed.

(** A pinch update by a rational factor, on a saved scale that is a
    rational, stores a scale in the range. *)
Lemma pinchUpdate_inRange (s : Canvas) (eventScale : Q) :
  savedScale s <> NaN ->
  inRange (scale (pinchUpdate eventScale s)).
Proof.
  intros Hsaved. unfold pinchUpdate. simpl scale.
  destruct (savedScale s) as [|v]; [contradiction Hsaved; reflexivity|].
  apply pinch_clamp_inRange.
Qed.

(** A pinch update by [NaN] stores [NaN]. *)
Lemma pinchUpdate_NaN (s : Canvas) : scale (pinchUpdate NaN s) = NaN.
Proof.
  unfold pinchUpdate. simpl scale. destruct (savedScale s); reflexivity.
Qed.

(** Only the pinch update assigns [scale]. *)
Lemma step_scale (os : OS) (W H : Q) (s : Canvas) (e : Event) :
  scale (step os W H s e) =
    match e with
    | PinchUpdate eventScale => scale (pinchUpdate eventScale s)
    | _ => scale s
    end.
Proof.
  destruct e; simpl; try reflexivity.
  - unfold undo. destruct (pop (paths s)) as [[? ?]|]; reflexivity.
  - unfold redo. destruct (pop (undoStack s)) as [[? ?]|]; reflexivity.
  - unfold drawStart. destruct (isPinching s); reflexivity.
  - unfold drawUpdate.
    destruct (isDrawing s), (currentPath s), (isPinching s); reflexivity.
  - unfold drawEnd. destruct (isDrawing s), (currentPath s); reflexivity.
Qed.

(** Only the pinch start assigns [savedScale], from [scale]. *)
Lemma step_savedScale (os : OS) (W H : Q) (s : Canvas) (e : Event) :
  savedScale (step os W H s e) =
    match e with
    | PinchStart => scale s
    | _ => savedScale s
    end.
Proof.
  destruct e; simpl; try reflexivity.
  - unfold undo. destruct (pop (paths s)) as [[? ?]|]; reflexivity.
  - unfold redo. destruct (pop (undoStack s)) as [[? ?]|]; reflexivity.
  - unfold drawStart. destruct (isPinching s); reflexivity.
  - unfold drawUpdate.
    destruct (isDrawing s), (currentPath s), (isPinching s); reflexivity.
  - unfold drawEnd. destruct (isDrawing s), (currentPath s); reflexivity.
Qed.

Lemma step_inRange (os : OS) (W H : Q) (s : Canvas) (e : Event) :
  finiteFactor e = true ->
  inRange (scale s) /\ savedScale s <> NaN ->
  inRange (scale (step os W H s e)) /\ savedScale (step os W H s e) <> NaN.
Proof.
  intros He [Hs Hsaved]. rewrite step_scale, step_savedScale.
  destruct e; try (split; assumption).
  - split; [exact Hs | apply inRange_not_NaN, Hs].
  - destruct eventScale as [|k]; [discriminate He|].
    split; [apply pinchUpdate_inRange, Hsaved | exact Hsaved].
Qed.

Lemma run_inRange (os : OS) (W H : Q) (evs : list Event) :
  forall s : Canvas,
  forallb finiteFactor evs = true ->
  inRange (scale s) /\ savedScale s <> NaN ->
  inRange (scale (run os W H s evs)) /\
  savedScale (run os W H s evs) <> NaN.
Proof.
  induction evs as [|e evs IH]; intros s Hall Hs.
  - exact Hs.
  - simpl in Hall. apply andb_prop in Hall. destruct Hall as [He Hall].
    rewrite run_cons. apply IH; [exact Hall|].
    apply step_inRange; assumption.
Qed.

(** Whatever the factors, the scale is in the range or [NaN]: it is
    never 0, the one value the divisions of the component could not
    take. *)
Lemma step_scale_range_or_NaN (os : OS) (W H : Q) (s : Canvas) (e : Event) :
  (scale s = NaN \/ inRange (scale s)) /\
  (savedScale s = NaN \/ inRange (savedScale s)) ->
  (scale (step os W H s e) = NaN \/ inRange (scale (step os W H s e))) /\
  (savedScale (step os W H s e) = NaN \/
   inRange (savedScale (step os W H s e))).
Proof.
  intros [Hs Hsaved]. rewrite step_scale, step_savedScale.
  destruct e; try (split; assumption).
  split; [|exact Hsaved].
  destruct eventScale as [|k]; [left; apply pinchUpdate_NaN|].
  destruct Hsaved as [Hnan|Hin].
  - left. unfold pinchUpdate. simpl scale. rewrite Hnan. reflexivity.
  - right. apply pinchUpdate_inRange, inRange_not_NaN, Hin.
Qed.

Lemma run_scale_range_or_NaN (os : OS) (W H : Q) (evs : list Event) :
  scale (run os W H initial evs) = NaN \/
  inRange (scale (run os W H initial evs)).
Proof.
  assert (Hinit : inRange (Num 1))
    by (unfold inRange, nle; split; unfold Qle; simpl; lia).
  assert (Hall : forall evs s,
            (scale s = NaN \/ inRange (scale s)) /\
            (savedScale s = NaN \/ inRange (savedScale s)) ->
            (scale (run os W H s evs) = NaN \/
             inRange (scale (run os W H s evs))) /\
            (savedScale (run os W H s evs) = NaN \/
             inRange (savedScale (run os W H s evs)))).
  { clear evs. intros evs. induction evs as [|e evs IH]; intros s Hs.
    - exact Hs.
    - rewrite run_cons. apply IH, step_scale_range_or_NaN, Hs. }
  apply (Hall evs initial). split; right; exact Hinit.
Qed.

(** C4 (as stated, refuted). The scale does not stay between 0.5 and 3
    for any update value: [Math.max] and [Math.min] hand a [NaN] through,
    so a pinch update whose factor is [NaN] stores [NaN], which is in no
    range. *)
Lemma pinch_nan_leaves_range :
  ~ (forall (s : Canvas) (eventScale : number),
       inRange (scale s) ->
       inRange
         (scale (run ios 100 200 s [PinchStart; PinchUpdate eventScale]))).
Proof.
  intros Hall.
  assert (Hinit : inRange (scale initial))
    by (unfold inRange, nle; simpl; split; unfold Qle; simpl; lia).
  destruct (Hall initial NaN Hinit) as [Hlo _].
  exact Hlo.
Qed.

(** C4 (amended). From a scale between 0.5 and 3 and a saved scale that
    is not [NaN] (as at mount), every sequence of events whose pinch
    updates carry a factor other than [NaN] keeps the scale between 0.5
    and 3, after each pinch update as after any other event; a pinch
    update by such a factor brings the scale into the range whatever it
    was before; a pinch update by [NaN] stores [NaN]. *)
Theorem zoom_clamp (os : OS) (W H : Q) (s : Canvas) (evs : list Event) :
  (forallb finiteFactor evs = true ->
   inRange (scale s) -> savedScale s <> NaN ->
   inRange (scale (run os W H s evs))) /\
  (forall eventScale : Q,
     savedScale (run os W H s evs) <> NaN ->
     inRange (scale (run os W H s (evs ++ [PinchUpdate eventScale])))) /\
  scale (run os W H s (evs ++ [PinchUpdate NaN])) = NaN.
Proof.
  split; [|split].
  - intros Hall Hs Hsaved.
    exact (proj1 (run_inRange os W H evs s Hall (conj Hs Hsaved))).
  - intros eventScale Hsaved. rewrite run_app.
    apply pinchUpdate_inRange, Hsaved.
  - rewrite run_app. apply pinchUpdate_NaN.
Qed.

Lemma zoom_clamp_witness :
  forallb finiteFactor
    [PinchStart; PinchUpdate 5; PinchEnd; PinchStart; PinchUpdate (1 # 100)]
    = true /\
  inRange (scale initial) /\
  savedScale initial <> NaN /\
  inRange (scale (run ios 100 200 initial
                    [PinchStart; PinchUpdate 5; PinchEnd; PinchStart;
                     PinchUpdate (1 # 100)])).
Proof.
  assert (Hinit : inRange (scale initial))
    by (unfold inRange, nle; simpl; split; unfold Qle; simpl; lia).
  assert (Hsaved : savedScale initial <> NaN) by (simpl; discriminate).
  split; [reflexivity|]. split; [exact Hinit|]. split; [exact Hsaved|].
  exact (proj1 (zoom_clamp ios 100 200 initial
                  [PinchStart; PinchUpdate 5; PinchEnd; PinchStart;
                   PinchUpdate (1 # 100)]) eq_refl Hinit Hsaved).
Defined.

(** Scenario D of the specification: a pinch by 5 from scale 1 stops at 3. *)
Example pinch_by_five :
  scale (run ios 100 200 initial [PinchStart; PinchUpdate 5]) = 3.
Proof. reflexivity. Qed.

(** ** Coordinates *)


Lemma clampQ_bounds (lo hi v : Q) :
  lo <= hi -> lo <= clampQ lo hi v /\ clampQ lo hi v <= hi.
Proof.
  intros Hle. unfold clampQ.
  destruct (Qlt_le_dec v lo) as [Hlt|Hge].
  - split; [apply Qle_refl | exact Hle].
  - destruct (Qlt_le_dec hi v) as [Hgt|Hle'].
    + split; [exact Hle | apply Qle_refl].
    + split; assumption.
Qed.





(** ** Rendering *)

Lemma string_app_assoc (a b c : string) :
  ((a ++ b) ++ c)%string = (a ++ b ++ c)%string.
Proof.
  induction a as [|ch a IH]; simpl.
  - reflexivity.
  - rewrite IH. reflexivity.
Qed.

Lemma commandsText_snoc (numToString : number -> string) (cs : list Command)
    (c : Command) :
  cs <> [] ->
  commandsText numToString (cs ++ [c]) =
    (commandsText numToString cs ++ " " ++ commandText numToString c)%string.
Proof.
  induction cs as [|c0 cs IH]; intros Hne.
  - contradiction.
  - destruct cs as [|c1 cs].
    + reflexivity.
    + change (commandsText numToString ((c0 :: c1 :: cs) ++ [c]))
        with (commandText numToString c0 ++ " " ++
              commandsText numToString ((c1 :: cs) ++ [c]))%string.
      rewrite IH by discriminate.
      change (commandsText numToString (c0 :: c1 :: cs))
        with (commandText numToString c0 ++ " " ++
              commandsText numToString (c1 :: cs))%string.
      rewrite !string_app_assoc. reflexivity.
Qed.

(** Past index 0 the reducer appends one line-to per point. *)
Lemma reduceFrom_lineTo (numToString : number -> string) (ps : list Point) :
  forall (index : nat) (cs : list Command),
  cs <> [] ->
  reduceFrom (pathData numToString) (S index) ps
    (commandsText numToString cs) =
  commandsText numToString (cs ++ map LineTo ps).
Proof.
  induction ps as [|p ps IH]; intros index cs Hne.
  - simpl. rewrite app_nil_r. reflexivity.
  - simpl reduceFrom. simpl map.
    replace (cs ++ LineTo p :: map LineTo ps)
      with ((cs ++ [LineTo p]) ++ map LineTo ps)
      by (rewrite <- app_assoc; reflexivity).
    rewrite <- (IH (S index)).
    + rewrite commandsText_snoc by exact Hne. reflexivity.
    + destruct cs; discriminate.
Qed.

(** C8. A path with at least one point renders as one [SvgPath] whose [d]
    is the text of the polyline (a move-to to the first point, then a
    line-to per later point in order, and nothing after the last of them),
    whose [fill] is ['none'] and whose [strokeWidth] is the width of the
    path divided by the current scale. *)
Theorem renderPath_polyline (numToString : number -> string) (s : Canvas)
    (first : Point) (rest : list Point) (c : string) (w : Q) (t : Tool) :
  renderPath numToString s (mkDrawPath (first :: rest) c w t) =
    Some (mkSvgPath (commandsText numToString (polyline first rest))
            c (w / scale s) "round" "round" "none").
Proof.
  unfold renderPath, reduce, polyline. simpl points.
  change (reduceFrom (pathData numToString) 0 (first :: rest) EmptyString)
    with (reduceFrom (pathData numToString) 1 rest
            (commandsText numToString [MoveTo first])).
  rewrite (reduceFrom_lineTo numToString rest 0 [MoveTo first])
    by discriminate.
  reflexivity.
Qed.

(** A path without points renders as nothing. *)
Lemma renderPath_empty (numToString : number -> string) (s : Canvas)
    (c : string) (w : Q) (t : Tool) :
  renderPath numToString s (mkDrawPath [] c w t) = None.
Proof. reflexivity. Qed.

(** The reducer on two points, as the source builds the text. *)
Example renderPath_two_points (numToString : number -> string) :
  option_map d (renderPath numToString initial strokeA) =
    Some (("M " ++ numToString 1 ++ " " ++ numToString 1) ++
          " L " ++ numToString 2 ++ " " ++ numToString 3)%string.
Proof. reflexivity. Qed.

(** * Further properties *)

(** ** Invariants of traces *)

(** A property every event preserves holds after every trace. *)
Lemma run_invariant (os : OS) (W H : Q) (P : Canvas -> Prop) :
  (forall s e, P s -> P (step os W H s e)) ->
  forall evs s, P s -> P (run os W H s evs).
Proof.
  intros Hstep evs. induction evs as [|e evs IH]; intros s Hs.
  - exact Hs.
  - rewrite run_cons. apply IH, Hstep, Hs.
Qed.

(** ** History: repeated undo and redo *)

Lemma iter_undo_suffix (rem : list DrawPath) :
  forall (s : Canvas) (init : list DrawPath),
  paths s = init ++ rem ->
  Nat.iter (List.length rem) undo s =
    setPaths init (setUndoStack (undoStack s ++ rev rem) s).
Proof.
  induction rem as [|z rem IH] using rev_ind; intros s init Hp.
  - simpl. rewrite app_nil_r in *. destruct s; simpl in *. subst.
    reflexivity.
  - rewrite List.length_app, Nat.add_comm. simpl List.length. simpl Nat.add.
    rewrite Nat.iter_succ_r.
    rewrite app_assoc in Hp.
    rewrite (undo_nonempty s (init ++ rem) z Hp).
    rewrite (IH _ init); [|reflexivity]. simpl.
    rewrite rev_app_distr. simpl. rewrite <- app_assoc. reflexivity.
Qed.

Lemma iter_redo_suffix (rem : list DrawPath) :
  forall (s : Canvas) (base : list DrawPath),
  undoStack s = base ++ rev rem ->
  Nat.iter (List.length rem) redo s =
    setPaths (paths s ++ rem) (setUndoStack base s).
Proof.
  induction rem as [|z rem IH]; intros s base Hu.
  - simpl in *. rewrite !app_nil_r in *. destruct s; simpl in *. subst.
    reflexivity.
  - simpl List.length. rewrite Nat.iter_succ_r.
    simpl rev in Hu. rewrite app_assoc in Hu.
    rewrite (redo_nonempty s (base ++ rev rem) z Hu).
    rewrite (IH _ base); [|reflexivity]. simpl.
    rewrite <- app_assoc. reflexivity.
Qed.

Lemma split_tail {A : Type} (l : list A) (k : nat) :
  (k <= List.length l)%nat ->
  l = firstn (List.length l - k) l ++ skipn (List.length l - k) l /\
  List.length (skipn (List.length l - k) l) = k.
Proof.
  intros Hk. split.
  - symmetry. apply firstn_skipn.
  - rewrite List.length_skipn. lia.
Qed.

Lemma iter_undo_tail (s : Canvas) (k : nat) :
  (k <= List.length (paths s))%nat ->
  Nat.iter k undo s =
    setPaths (firstn (List.length (paths s) - k) (paths s))
      (setUndoStack
         (undoStack s ++ rev (skipn (List.length (paths s) - k) (paths s)))
         s).
Proof.
  intros Hk. destruct (split_tail (paths s) k Hk) as [Hsplit Hlen].
  pose proof (iter_undo_suffix _ s _ Hsplit) as Hit.
  rewrite Hlen in Hit. exact Hit.
Qed.

(** X1. [redo] immediately followed by [undo] gives back the very state
    when there is something to redo. *)
Theorem undo_redo_state (s : Canvas) : undoStack s <> [] -> undo (redo s) = s.
Proof.
  intros Hne.
  destruct (pop_nonempty (undoStack s) Hne) as (rest & z & _ & Hu).
  rewrite (redo_nonempty s rest z Hu).
  rewrite (undo_nonempty _ (paths s) z); [|reflexivity].
  destruct s; simpl in *. subst. reflexivity.
Qed.

Lemma undo_redo_state_witness :
  undoStack (undo oneStroke) <> [] /\
  undo (redo (undo oneStroke)) = undo oneStroke.
Proof.
  assert (Hne : undoStack (undo oneStroke) <> []) by (simpl; discriminate).
  split; [exact Hne | exact (undo_redo_state (undo oneStroke) Hne)].
Defined.

(** X2. [k] undos, for [k] up to the number of committed paths, move the
    last [k] paths to the undo stack in reverse order and leave the others
    in place. *)
Theorem undo_many (s : Canvas) (k : nat) :
  (k <= List.length (paths s))%nat ->
  paths (Nat.iter k undo s) = firstn (List.length (paths s) - k) (paths s) /\
  undoStack (Nat.iter k undo s) =
    undoStack s ++ rev (skipn (List.length (paths s) - k) (paths s)).
Proof.
  intros Hk. rewrite (iter_undo_tail s k Hk). split; reflexivity.
Qed.

Lemma undo_many_witness :
  (2 <= List.length (paths (setPaths [strokeA; strokeB; strokeA] initial)))%nat /\
  paths (Nat.iter 2 undo (setPaths [strokeA; strokeB; strokeA] initial)) =
    [strokeA] /\
  undoStack (Nat.iter 2 undo (setPaths [strokeA; strokeB; strokeA] initial)) =
    [strokeA; strokeB].
Proof.
  assert (Hk : (2 <= List.length
                  (paths (setPaths [strokeA; strokeB; strokeA] initial)))%nat)
    by (simpl; lia).
  split; [exact Hk|].
  exact (undo_many (setPaths [strokeA; strokeB; strokeA] initial) 2 Hk).
Defined.

(** X3. [k] undos followed by [k] redos, for [k] up to the number of
    committed paths, give back the very state. *)
Theorem undo_many_redo_many (s : Canvas) (k : nat) :
  (k <= List.length (paths s))%nat ->
  Nat.iter k redo (Nat.iter k undo s) = s.
Proof.
  intros Hk. rewrite (iter_undo_tail s k Hk).
  destruct (split_tail (paths s) k Hk) as [Hsplit Hlen].
  pose proof (iter_redo_suffix
                (skipn (List.length (paths s) - k) (paths s))
                (setPaths (firstn (List.length (paths s) - k) (paths s))
                   (setUndoStack
                      (undoStack s ++
                       rev (skipn (List.length (paths s) - k) (paths s))) s))
                (undoStack s) eq_refl) as Hredo.
  rewrite Hlen in Hredo. rewrite Hredo. simpl.
  rewrite <- Hsplit. destruct s; reflexivity.
Qed.

Lemma undo_many_redo_many_witness :
  (2 <= List.length (paths (setPaths [strokeA; strokeB; strokeA] initial)))%nat /\
  Nat.iter 2 redo
    (Nat.iter 2 undo (setPaths [strokeA; strokeB; strokeA] initial)) =
  setPaths [strokeA; strokeB; strokeA] initial.
Proof.
  assert (Hk : (2 <= List.length
                  (paths (setPaths [strokeA; strokeB; strokeA] initial)))%nat)
    by (simpl; lia).
  split; [exact Hk|].
  exact (undo_many_redo_many
           (setPaths [strokeA; strokeB; strokeA] initial) 2 Hk).
Defined.

(** X4. Undo saturates: past the number of committed paths, further
    undos change nothing, and [paths] is empty. *)
Theorem undo_saturates (s : Canvas) (n : nat) :
  (List.length (paths s) <= n)%nat ->
  Nat.iter n undo s = Nat.iter (List.length (paths s)) undo s /\
  paths (Nat.iter n undo s) = [].
Proof.
  intros Hn.
  assert (Hall : Nat.iter (List.length (paths s)) undo s =
                 setPaths [] (setUndoStack (undoStack s ++ rev (paths s)) s))
    by (apply iter_undo_suffix; reflexivity).
  assert (Hmore : forall m,
            Nat.iter (m + List.length (paths s)) undo s =
            Nat.iter (List.length (paths s)) undo s).
  { induction m as [|m IH]; [reflexivity|].
    simpl. rewrite IH, Hall. reflexivity. }
  replace n with ((n - List.length (paths s)) + List.length (paths s))%nat by lia.
  rewrite Hmore, Hall. split; reflexivity.
Qed.

Lemma undo_saturates_witness :
  (List.length (paths oneStroke) <= 3)%nat /\
  paths (Nat.iter 3 undo oneStroke) = [].
Proof.
  assert (Hn : (List.length (paths oneStroke) <= 3)%nat) by (simpl; lia).
  split; [exact Hn | exact (proj2 (undo_saturates oneStroke 3 Hn))].
Defined.

(** A property preserved by the events of a class holds after every trace
    of such events. *)
Lemma run_invariant_on (os : OS) (W H : Q) (ok : Event -> bool)
    (P : Canvas -> Prop) :
  (forall s e, ok e = true -> P s -> P (step os W H s e)) ->
  forall evs s, forallb ok evs = true -> P s -> P (run os W H s evs).
Proof.
  intros Hstep evs. induction evs as [|e evs IH]; intros s Hall Hs.
  - exact Hs.
  - simpl in Hall. apply andb_prop in Hall. destruct Hall as [He Hall].
    rewrite run_cons. apply IH; [exact Hall|]. apply Hstep; assumption.
Qed.

(** ** History: what is kept *)

Lemma step_history (os : OS) (W H : Q) (s : Canvas) (e : Event) :
  isDrawEnd e = false -> history (step os W H s e) = history s.
Proof.
  intros He. unfold history.
  destruct e; try discriminate He; simpl; try reflexivity.
  - unfold undo. destruct (pop (paths s)) as [[init z]|] eqn:E;
      [|reflexivity].
    apply pop_Some in E. simpl. unfold push. rewrite E, rev_app_distr.
    simpl. rewrite <- app_assoc. reflexivity.
  - unfold redo. destruct (pop (undoStack s)) as [[rest z]|] eqn:E;
      [|reflexivity].
    apply pop_Some in E. simpl. rewrite E, rev_app_distr. simpl.
    rewrite <- app_assoc. reflexivity.
  - unfold drawStart. destruct (isPinching s); reflexivity.
  - unfold drawUpdate.
    destruct (isDrawing s), (currentPath s), (isPinching s); reflexivity.
Qed.

(** X5. Undo and redo lose nothing and reorder nothing: the committed
    paths followed by the undone ones, most recently undone first, are
    the same list after any events other than the end of a draw
    gesture. *)
Theorem history_kept (os : OS) (W H : Q) (s : Canvas) (evs : list Event) :
  forallb (fun e => negb (isDrawEnd e)) evs = true ->
  history (run os W H s evs) = history s.
Proof.
  intros Hall.
  apply (run_invariant_on os W H (fun e => negb (isDrawEnd e))
           (fun s' => history s' = history s)); [|exact Hall|reflexivity].
  intros s' e He Hs'. rewrite step_history; [exact Hs'|].
  destruct (isDrawEnd e); [discriminate He | reflexivity].
Qed.

Lemma history_kept_witness :
  forallb (fun e => negb (isDrawEnd e))
    [Undo; DrawStart 1 1; Redo; Undo; PinchStart] = true /\
  history
    (run ios 100 200 (setPaths [strokeA; strokeB] initial)
       [Undo; DrawStart 1 1; Redo; Undo; PinchStart]) =
  [strokeA; strokeB].
Proof.
  split; [reflexivity|].
  exact (history_kept ios 100 200 (setPaths [strokeA; strokeB] initial)
           [Undo; DrawStart 1 1; Redo; Undo; PinchStart] eq_refl).
Defined.

Lemma step_paths_frame (os : OS) (W H : Q) (s : Canvas) (e : Event) :
  changesPaths e = false ->
  paths (step os W H s e) = paths s /\
  undoStack (step os W H s e) = undoStack s.
Proof.
  intros He. destruct e; try discriminate He; simpl;
    try (split; reflexivity).
  - unfold drawStart. destruct (isPinching s); split; reflexivity.
  - unfold drawUpdate.
    destruct (isDrawing s), (currentPath s), (isPinching s);
      split; reflexivity.
Qed.

(** X6. The committed paths and the undo stack change only at the end of
    a draw gesture, at an undo and at a redo: tool and background changes,
    starts, samples and finalizes of the draw gesture, pinch and pan leave
    both as they are. *)
Theorem paths_change_only_by_commit_undo_redo (os : OS) (W H : Q)
    (s : Canvas) (evs : list Event) :
  forallb (fun e => negb (changesPaths e)) evs = true ->
  paths (run os W H s evs) = paths s /\
  undoStack (run os W H s evs) = undoStack s.
Proof.
  intros Hall.
  apply (run_invariant_on os W H (fun e => negb (changesPaths e))
           (fun s' => paths s' = paths s /\ undoStack s' = undoStack s));
    [|exact Hall|split; reflexivity].
  intros s' e He [Hp Hu].
  destruct (step_paths_frame os W H s' e) as [Hp' Hu'].
  - destruct (changesPaths e); [discriminate He | reflexivity].
  - split; congruence.
Qed.

Lemma paths_change_only_by_commit_undo_redo_witness :
  forallb (fun e => negb (changesPaths e))
    [DrawStart 1 1; DrawUpdate 2 2; DrawFinalize; SetTool eraser;
     PinchStart; PinchUpdate 2; PanStart; PanUpdate 3 4; PanEnd] = true /\
  paths
    (run ios 100 200 oneStroke
       [DrawStart 1 1; DrawUpdate 2 2; DrawFinalize; SetTool eraser;
        PinchStart; PinchUpdate 2; PanStart; PanUpdate 3 4; PanEnd]) =
  [strokeA].
Proof.
  split; [reflexivity|].
  exact (proj1 (paths_change_only_by_commit_undo_redo ios 100 200 oneStroke
                  [DrawStart 1 1; DrawUpdate 2 2; DrawFinalize;
                   SetTool eraser; PinchStart; PinchUpdate 2; PanStart;
                   PanUpdate 3 4; PanEnd] eq_refl)).
Defined.

(** X7. A stroke is committed once: after the end callback, and after the
    finalize callback, a further end callback changes nothing. *)
Theorem drawEnd_commits_once (s : Canvas) :
  drawEnd (drawEnd s) = drawEnd s /\
  drawEnd (drawFinalize s) = drawFinalize s.
Proof.
  split; [|reflexivity].
  unfold drawEnd at 2.
  destruct (isDrawing s) eqn:Hd, (currentPath s) eqn:Hc;
    try reflexivity; unfold drawEnd; rewrite Hd; try rewrite Hc;
    reflexivity.
Qed.

(** ** Stroke capture: a whole gesture *)

Lemma run_updates (os : OS) (W H : Q) (samples : list (Q * Q)) :
  forall (s : Canvas) (p : DrawPath),
  isDrawing s = true ->
  isPinching s = false ->
  currentPath s = Some p ->
  run os W H s (updatesOf samples) =
    setCurrentPath
      (Some (mkDrawPath
               (points p ++
                map (fun q => getCoordinates os W H s (fst q) (snd q))
                  samples)
               (color p) (width p) (type p))) s.
Proof.
  induction samples as [|q samples IH]; intros s p Hd Hpinch Hcur.
  - simpl. rewrite app_nil_r. destruct s, p; simpl in *. subst.
    reflexivity.
  - unfold updatesOf. simpl map. rewrite run_cons. simpl step.
    unfold drawUpdate at 1. rewrite Hd, Hpinch, Hcur. cbv zeta.
    fold (updatesOf samples).
    rewrite (IH _ (mkDrawPath
                     (points p ++
                      [getCoordinates os W H s (fst q) (snd q)])
                     (color p) (width p) (type p)));
      [|exact Hd|exact Hpinch|reflexivity].
    simpl. rewrite <- app_assoc. reflexivity.
Qed.

(** X8. A draw gesture that starts while no pinch is active, reports any
    number of samples and ends commits exactly one path: its points are
    the converted start point and every converted sample, in order and
    without any dropped or merged, and its style is that of the tool
    active at the start.  No path stays in progress. *)
Theorem gesture_commits_every_sample (os : OS) (W H : Q) (s : Canvas)
    (ex ey : Q) (samples : list (Q * Q)) :
  isPinching s = false ->
  let s' := run os W H s (DrawStart ex ey :: updatesOf samples ++ [DrawEnd]) in
  paths s' =
    paths s ++
    [mkDrawPath
       (map (fun q => getCoordinates os W H s (fst q) (snd q))
          ((ex, ey) :: samples))
       (toolColor (tool s)) (toolWidth (tool s)) (tool s)] /\
  currentPath s' = None /\
  isDrawing s' = false.
Proof.
  intros Hpinch. cbv zeta. rewrite run_cons, run_app. simpl step.
  unfold drawStart. rewrite Hpinch. cbv zeta.
  rewrite (run_updates os W H samples _
             (mkDrawPath [getCoordinates os W H s ex ey]
                (toolColor (tool s)) (toolWidth (tool s)) (tool s)));
    [|reflexivity|exact Hpinch|reflexivity].
  repeat split.
Qed.

Lemma gesture_commits_every_sample_witness :
  isPinching initial = false /\
  paths (run ios 100 200 initial
           (DrawStart 5 5 :: updatesOf [(6, 6); (7, 8)] ++ [DrawEnd])) =
  [mkDrawPath [mkPoint 5 5; mkPoint 6 6; mkPoint 7 8] "black" 2 pen].
Proof.
  split; [reflexivity|].
  exact (proj1 (gesture_commits_every_sample ios 100 200 initial 5 5
                  [(6, 6); (7, 8)] eq_refl)).
Defined.

(** ** Invariants of the drawing state *)

Lemma step_flagsAgree (os : OS) (W H : Q) (s : Canvas) (e : Event) :
  flagsAgree s -> flagsAgree (step os W H s e).
Proof.
  unfold flagsAgree. intros Hs.
  assert (Hoff : false = true <-> @None DrawPath <> None)
    by (split; [discriminate | intros Hn; contradiction Hn; reflexivity]).
  destruct e; simpl; try exact Hs.
  - unfold undo. destruct (pop (paths s)) as [[? ?]|]; exact Hs.
  - unfold redo. destruct (pop (undoStack s)) as [[? ?]|]; exact Hs.
  - unfold drawStart. destruct (isPinching s); [exact Hs|]. simpl.
    split; [discriminate | reflexivity].
  - unfold drawUpdate.
    destruct (isDrawing s) eqn:Hd, (currentPath s) eqn:Hc,
      (isPinching s) eqn:Hp; simpl; rewrite ?Hd, ?Hc; try exact Hs.
    split; [discriminate | reflexivity].
  - unfold drawEnd.
    destruct (isDrawing s) eqn:Hd, (currentPath s) eqn:Hc; simpl;
      rewrite ?Hd, ?Hc; try exact Hs. exact Hoff.
  - exact Hoff.
Qed.

(** X9. The drawing flag and the path in progress go together: from a
    state where [isDrawing] is up exactly when [currentPath] is set, every
    sequence of events leads to such a state.  The [isDrawing] tests of
    the update and end callbacks therefore never decide anything that the
    [currentPath] test beside them does not. *)
Theorem flags_agree_always (os : OS) (W H : Q) (s : Canvas)
    (evs : list Event) :
  flagsAgree s -> flagsAgree (run os W H s evs).
Proof.
  apply (run_invariant os W H flagsAgree).
  intros s' e. apply step_flagsAgree.
Qed.

Lemma flags_agree_always_witness :
  flagsAgree initial /\
  flagsAgree
    (run ios 100 200 initial
       [DrawStart 1 1; PinchStart; DrawUpdate 2 2; PinchEnd; DrawEnd]).
Proof.
  assert (Hinit : flagsAgree initial).
  { unfold flagsAgree. simpl. split; [discriminate|].
    intros Hn. contradiction Hn. reflexivity. }
  split; [exact Hinit|].
  exact (flags_agree_always ios 100 200 initial
           [DrawStart 1 1; PinchStart; DrawUpdate 2 2; PinchEnd; DrawEnd]
           Hinit).
Defined.

Lemma wellFormed_initial : wellFormed initial.
Proof.
  unfold wellFormed. simpl. repeat split; try constructor.
  all: discriminate.
Qed.

Lemma step_wellFormed (os : OS) (W H : Q) (s : Canvas) (e : Event) :
  wellFormed s -> wellFormed (step os W H s e).
Proof.
  unfold wellFormed. intros (Hp & Hu & Hc).
  destruct e; simpl; try (split; [exact Hp|split; [exact Hu|exact Hc]]).
  - unfold undo. destruct (pop (paths s)) as [[init z]|] eqn:E;
      [|split; [exact Hp|split; [exact Hu|exact Hc]]].
    apply pop_Some in E. rewrite E in Hp.
    apply Forall_app in Hp. destruct Hp as [Hinit Hz]. simpl.
    split; [exact Hinit|]. split; [|exact Hc].
    unfold push. apply Forall_app. split; assumption.
  - unfold redo. destruct (pop (undoStack s)) as [[rest z]|] eqn:E;
      [|split; [exact Hp|split; [exact Hu|exact Hc]]].
    apply pop_Some in E. rewrite E in Hu.
    apply Forall_app in Hu. destruct Hu as [Hrest Hz]. simpl.
    split; [apply Forall_app; split; assumption|].
    split; [exact Hrest | exact Hc].
  - unfold drawStart. destruct (isPinching s);
      [split; [exact Hp|split; [exact Hu|exact Hc]]|].
    simpl. split; [exact Hp|]. split; [exact Hu|].
    intros p Hnew. injection Hnew as <-.
    unfold wellFormedPath. simpl.
    split; [discriminate | split; reflexivity].
  - unfold drawUpdate.
    destruct (isDrawing s), (currentPath s) as [prev|] eqn:Hcur,
      (isPinching s); simpl;
      try (split; [exact Hp|split; [exact Hu|]]; rewrite ?Hcur; exact Hc).
    split; [exact Hp|]. split; [exact Hu|].
    intros p Hnew. injection Hnew as <-.
    destruct (Hc prev eq_refl) as (_ & Hcol & Hwid).
    unfold wellFormedPath. simpl.
    split; [|split; assumption].
    destruct (points prev); discriminate.
  - unfold drawEnd.
    destruct (isDrawing s), (currentPath s) as [cur|] eqn:Hcur; simpl;
      try (split; [exact Hp|split; [exact Hu|]]; rewrite ?Hcur; exact Hc).
    split; [|split; [exact Hu | discriminate]].
    apply Forall_app. split; [exact Hp|].
    constructor; [apply Hc; reflexivity | constructor].
  - split; [exact Hp|]. split; [exact Hu | discriminate].
Qed.

(** X10. Every path the canvas holds is one the draw gesture built: from
    a state whose committed, undone and in-progress paths all have at
    least one point and the colour and width of their tool, every sequence
    of events leads to such a state.  In particular no path without points
    is ever committed. *)
Theorem paths_well_formed_always (os : OS) (W H : Q) (s : Canvas)
    (evs : list Event) :
  wellFormed s -> wellFormed (run os W H s evs).
Proof.
  apply (run_invariant os W H wellFormed).
  intros s' e. apply step_wellFormed.
Qed.

Lemma paths_well_formed_always_witness :
  wellFormed initial /\
  wellFormed
    (run ios 100 200 initial
       [SetTool eraser; DrawStart 1 1; DrawEnd; Undo; DrawStart 2 2]).
Proof.
  split; [exact wellFormed_initial|].
  exact (paths_well_formed_always ios 100 200 initial
           [SetTool eraser; DrawStart 1 1; DrawEnd; Undo; DrawStart 2 2]
           wellFormed_initial).
Defined.

Lemma renderPath_wellFormed (numToString : number -> string) (s : Canvas)
    (p : DrawPath) :
  wellFormedPath p -> renderPath numToString s p <> None.
Proof.
  intros (Hpts & _). unfold renderPath.
  destruct (points p); [contradiction Hpts; reflexivity | discriminate].
Qed.

(** X11. Whatever the events since mount, the canvas draws one element
    per committed path, in commit order, then one for the path in
    progress if there is one, and none of them is missing. *)
Theorem renderAll_complete (os : OS) (W H : Q)
    (numToString : number -> string) (evs : list Event) :
  let s := run os W H initial evs in
  List.length (renderAll numToString s) =
    (List.length (paths s) +
     match currentPath s with Some _ => 1 | None => 0 end)%nat /\
  Forall (fun r => r <> None) (renderAll numToString s) /\
  firstn (List.length (paths s)) (renderAll numToString s) =
    map (renderPath numToString s) (paths s).
Proof.
  cbv zeta.
  pose proof (run_invariant os W H wellFormed (step_wellFormed os W H)
                evs initial wellFormed_initial) as (Hp & _ & Hc).
  set (s := run os W H initial evs) in *.
  unfold renderAll. split; [|split].
  - rewrite List.length_app, List.length_map.
    destruct (currentPath s); reflexivity.
  - apply Forall_app. split.
    + apply Forall_map.
      apply (Forall_impl _ (fun p => renderPath_wellFormed numToString s p)).
      exact Hp.
    + destruct (currentPath s) as [cur|]; constructor.
      * apply renderPath_wellFormed, Hc. reflexivity.
      * constructor.
  - rewrite <- (List.length_map (renderPath numToString s) (paths s)).
    rewrite firstn_app, Nat.sub_diag, firstn_all. simpl.
    apply app_nil_r.
Qed.

Lemma step_redoStack (os : OS) (W H : Q) (s : Canvas) (e : Event) :
  redoStack s = [] -> redoStack (step os W H s e) = [].
Proof.
  intros Hr. destruct e; simpl; try exact Hr.
  - unfold undo. destruct (pop (paths s)) as [[? ?]|]; exact Hr.
  - unfold redo. destruct (pop (undoStack s)) as [[? ?]|]; exact Hr.
  - unfold drawStart. destruct (isPinching s); exact Hr.
  - unfold drawUpdate.
    destruct (isDrawing s), (currentPath s), (isPinching s); exact Hr.
  - unfold drawEnd.
    destruct (isDrawing s), (currentPath s); try exact Hr. reflexivity.
Qed.

(** X12. The ref [redoStack] never holds a path: it is empty at mount
    and after every sequence of events, undos included.  The undone paths
    live on [undoStack]. *)
Theorem redoStack_never_used (os : OS) (W H : Q) (evs : list Event) :
  redoStack (run os W H initial evs) = [] /\
  (forall s, redoStack s = [] -> redoStack (run os W H s evs) = []).
Proof.
  split.
  - apply (run_invariant os W H (fun s => redoStack s = []));
      [apply step_redoStack | reflexivity].
  - intros s. apply (run_invariant os W H (fun s => redoStack s = [])).
    apply step_redoStack.
Qed.

Lemma redoStack_never_used_witness :
  redoStack oneStroke = [] /\
  redoStack (run ios 100 200 oneStroke [Undo; Undo; Redo]) = [].
Proof.
  split; [reflexivity|].
  exact (proj2 (redoStack_never_used ios 100 200 [Undo; Undo; Redo])
           oneStroke eq_refl).
Defined.

(** ** Viewport: a whole pinch, a whole pan *)

(** [Math.min(Math.max(v, lo), hi)] is the clamp to a non-empty
    interval. *)
Lemma min_max_clampQ (lo hi v : Q) :
  lo <= hi -> Qmin (Qmax v lo) hi == clampQ lo hi v.
Proof.
  intros Hle. unfold clampQ.
  destruct (Qlt_le_dec v lo) as [Hlt|Hge].
  - rewrite Q.max_r; [|apply Qlt_le_weak, Hlt]. apply Q.min_l, Hle.
  - rewrite Q.max_l; [|exact Hge].
    destruct (Qlt_le_dec hi v) as [Hgt|Hle'].
    + apply Q.min_r, Qlt_le_weak, Hgt.
    + apply Q.min_l, Hle'.
Qed.

Lemma run_pinchUpdates_saved (os : OS) (W H : Q) (ks : list number) :
  forall s : Canvas,
  savedScale (run os W H s (map PinchUpdate ks)) = savedScale s.
Proof.
  induction ks as [|k ks IH]; intros s; [reflexivity|].
  simpl map. rewrite run_cons, IH. reflexivity.
Qed.

Lemma pinch_gesture_last (os : OS) (W H : Q) (s : Canvas)
    (ks : list number) (k : number) :
  scale (run os W H s (PinchStart :: map PinchUpdate (ks ++ [k]))) =
    mathMin (mathMax (scale s * k) (1 # 2)) 3.
Proof.
  rewrite map_app, run_cons, run_app. simpl.
  rewrite run_pinchUpdates_saved. reflexivity.
Qed.

(** X13. The scale a pinch leaves depends only on the scale when the
    pinch started and on the factor of its latest update; earlier updates
    of the same pinch do not accumulate.  When both are rationals it is
    their product clamped to the range from 0.5 to 3; when either is
    [NaN] it is [NaN]. *)
Theorem pinch_gesture_scale (os : OS) (W H : Q) (s : Canvas)
    (ks : list number) (k : number) :
  let after :=
    scale (run os W H s (PinchStart :: map PinchUpdate (ks ++ [k]))) in
  (forall p q : Q,
     scale s = Num p -> k = Num q ->
     (after == clampTo (1 # 2) 3 (p * q))%num /\ inRange after) /\
  (scale s = NaN \/ k = NaN -> after = NaN).
Proof.
  cbv zeta. rewrite pinch_gesture_last. split.
  - intros p q Hp Hq. rewrite Hp, Hq. split.
    + num_red. apply min_max_clampQ. unfold Qle; simpl; lia.
    + apply pinch_clamp_inRange.
  - intros [Hs|Hk].
    + rewrite Hs. reflexivity.
    + rewrite Hk. destruct (scale s); reflexivity.
Qed.

Lemma pinch_gesture_scale_witness :
  scale initial = Num 1 /\
  inRange
    (scale (run ios 100 200 initial
              (PinchStart :: map PinchUpdate ([Num 2; NaN] ++ [Num 5])))) /\
  scale (run ios 100 200 initial
           (PinchStart :: map PinchUpdate ([Num 2] ++ [NaN]))) = NaN.
Proof.
  split; [reflexivity|]. split.
  - exact (proj2 (proj1 (pinch_gesture_scale ios 100 200 initial
                           [Num 2; NaN] (Num 5)) 1 5 eq_refl eq_refl)).
  - exact (proj2 (pinch_gesture_scale ios 100 200 initial [Num 2] NaN)
             (or_intror eq_refl)).
Defined.

Lemma run_panUpdates_saved (os : OS) (W H : Q) (moves : list (Q * Q)) :
  forall s : Canvas,
  savedTranslateX (run os W H s (panUpdatesOf moves)) = savedTranslateX s /\
  savedTranslateY (run os W H s (panUpdatesOf moves)) = savedTranslateY s.
Proof.
  induction moves as [|m moves IH]; intros s; [split; reflexivity|].
  unfold panUpdatesOf. simpl map. rewrite run_cons.
  fold (panUpdatesOf moves).
  destruct (IH (step os W H s (PanUpdate (fst m) (snd m)))) as [Hx Hy].
  rewrite Hx, Hy. split; reflexivity.
Qed.

(** X14. During a pan the translation is the translation when the pan
    started plus the latest reported displacement, on each axis; earlier
    displacements of the same pan do not accumulate, and no bound is
    applied before the release. *)
Theorem pan_gesture_translate (os : OS) (W H : Q) (s : Canvas)
    (moves : list (Q * Q)) (dx dy : Q) :
  let s' := run os W H s (PanStart :: panUpdatesOf (moves ++ [(dx, dy)])) in
  translateX s' = (translateX s + dx)%num /\
  translateY s' = (translateY s + dy)%num.
Proof.
  cbv zeta. unfold panUpdatesOf. rewrite map_app, run_cons, run_app.
  fold (panUpdatesOf moves). simpl.
  destruct (run_panUpdates_saved os W H moves (panStart s)) as [Hx Hy].
  rewrite Hx, Hy. split; reflexivity.
Qed.

Lemma maxTranslate_Num (extent : Q) (s : Canvas) (k : Q) :
  scale s = Num k ->
  maxTranslate extent s = Num (((k - 1) * extent) / 2).
Proof. intros Hk. unfold maxTranslate. rewrite Hk. reflexivity. Qed.

Lemma halfExcess_nonneg (extent k : Q) :
  0 <= extent -> 1 <= k -> 0 <= ((k - 1) * extent) / 2.
Proof.
  intros He Hs. unfold Qdiv.
  apply Qmult_le_0_compat; [|unfold Qle; simpl; lia].
  apply Qmult_le_0_compat; [lra | exact He].
Qed.

Lemma halfExcess_neg (extent k : Q) :
  0 < extent -> k < 1 -> ((k - 1) * extent) / 2 < 0.
Proof.
  intros He Hs.
  assert (Hpos : 0 < (1 - k) * extent)
    by (apply Qmult_lt_0_compat; [lra | exact He]).
  assert (Heq : (k - 1) * extent / 2 == - ((1 - k) * extent) / 2)
    by field.
  rewrite Heq. unfold Qdiv.
  setoid_replace (- ((1 - k) * extent) * / 2)
    with (- (((1 - k) * extent) * / 2)) by ring.
  assert (Hhalf : 0 < ((1 - k) * extent) * / 2)
    by (apply Qmult_lt_0_compat; [exact Hpos | reflexivity]).
  lra.
Qed.

Lemma release_clamp (m t : Q) :
  0 <= m -> Qmin (Qmax t (- m)) m == clampQ (- m) m t.
Proof. intros Hm. apply min_max_clampQ. lra. Qed.

Lemma release_snap (m t : Q) : m < 0 -> Qmin (Qmax t (- m)) m == m.
Proof.
  intros Hm. apply Q.min_r.
  apply Qle_trans with (- m); [lra | apply Q.le_max_r].
Qed.

(** The value a release stores on one axis, at a rational scale. *)
Lemma release_value (extent : Q) (s : Canvas) (k : Q) (t : number) :
  scale s = Num k ->
  mathMin (mathMax t (- maxTranslate extent s)) (maxTranslate extent s) =
    match t with
    | NaN => NaN
    | Num q =>
        Num (Qmin (Qmax q (- (((k - 1) * extent) / 2)))
               (((k - 1) * extent) / 2))
    end.
Proof.
  intros Hk. rewrite (maxTranslate_Num extent s k Hk).
  destruct t; reflexivity.
Qed.

Lemma release_clamp_num (m : Q) (t : number) :
  0 <= m ->
  (match t with
   | NaN => NaN
   | Num q => Num (Qmin (Qmax q (- m)) m)
   end == clampTo (- Num m) (Num m) t)%num /\
  (t <> NaN ->
   (- Num m <= match t with
               | NaN => NaN
               | Num q => Num (Qmin (Qmax q (- m)) m)
               end <= Num m)%num).
Proof.
  intros Hm. destruct t as [|q]; num_red.
  - split; [exact I | intros Hn; contradiction Hn; reflexivity].
  - split; [apply release_clamp, Hm|]. intros _.
    rewrite (release_clamp m q Hm). apply clampQ_bounds. lra.
Qed.

(** X15. Releasing a pan at a scale of 1 or more brings the translation
    of each axis into the band of half the zoomed-in excess,
    (scale - 1) * extent / 2 on either side of 0, and leaves a translation
    already inside the band as it is.  At scale 1 the band is the single
    value 0.  A translation that is [NaN] stays [NaN]. *)
Theorem pan_release_zoomed_in (W H : Q) (s : Canvas) :
  0 <= W -> 0 <= H -> (1 <= scale s)%num ->
  (translateX (panEnd W H s) ==
     clampTo (- maxTranslate W s) (maxTranslate W s) (translateX s))%num /\
  (translateY (panEnd W H s) ==
     clampTo (- maxTranslate H s) (maxTranslate H s) (translateY s))%num /\
  (translateX s <> NaN ->
   (- maxTranslate W s <= translateX (panEnd W H s) <= maxTranslate W s)%num)
  /\
  (translateY s <> NaN ->
   (- maxTranslate H s <= translateY (panEnd W H s) <= maxTranslate H s)%num).
Proof.
  intros HW HH Hs.
  destruct (scale s) as [|k] eqn:Hk; [contradiction Hs|].
  change (1 <= k) in Hs.
  pose proof (halfExcess_nonneg W k HW Hs) as HmW.
  pose proof (halfExcess_nonneg H k HH Hs) as HmH.
  unfold panEnd. cbn [translateX translateY setTranslate].
  fold (maxTranslate W s). fold (maxTranslate H s).
  rewrite (release_value W s k _ Hk), (release_value H s k _ Hk).
  rewrite (maxTranslate_Num W s k Hk), (maxTranslate_Num H s k Hk).
  destruct (release_clamp_num _ (translateX s) HmW) as [Hx Hbx].
  destruct (release_clamp_num _ (translateY s) HmH) as [Hy Hby].
  repeat split; try assumption; try (apply Hbx; assumption);
    apply Hby; assumption.
Qed.

Lemma pan_release_zoomed_in_witness :
  0 <= 100 /\ 0 <= 200 /\
  (1 <= scale (setTranslate 90 (-7) (setScale 2 initial)))%num /\
  translateX (setTranslate 90 (-7) (setScale 2 initial)) <> NaN /\
  (translateX (panEnd 100 200 (setTranslate 90 (-7) (setScale 2 initial))) <=
     maxTranslate 100 (setTranslate 90 (-7) (setScale 2 initial)))%num.
Proof.
  assert (HW : 0 <= 100) by (unfold Qle; simpl; lia).
  assert (HH : 0 <= 200) by (unfold Qle; simpl; lia).
  assert (Hs : (1 <= scale (setTranslate 90 (-7) (setScale 2 initial)))%num)
    by (simpl; unfold Qle; simpl; lia).
  assert (Ht : translateX (setTranslate 90 (-7) (setScale 2 initial)) <> NaN)
    by (simpl; discriminate).
  split; [exact HW|]. split; [exact HH|]. split; [exact Hs|].
  split; [exact Ht|].
  exact (proj2 (proj1 (proj2 (proj2
           (pan_release_zoomed_in 100 200
              (setTranslate 90 (-7) (setScale 2 initial)) HW HH Hs))) Ht)).
Defined.

(** X16. Releasing a pan at a scale below 1 ignores where the pan went:
    the bound is then negative, and the translation of each axis, when it
    is not [NaN], becomes that bound, (scale - 1) * extent / 2. *)
Theorem pan_release_zoomed_out (W H : Q) (s : Canvas) :
  0 < W -> 0 < H -> (scale s < 1)%num ->
  translateX s <> NaN -> translateY s <> NaN ->
  ((translateX (panEnd W H s) == maxTranslate W s)%num /\
   (maxTranslate W s < 0)%num) /\
  ((translateY (panEnd W H s) == maxTranslate H s)%num /\
   (maxTranslate H s < 0)%num).
Proof.
  intros HW HH Hs Htx Hty.
  destruct (scale s) as [|k] eqn:Hk; [contradiction Hs|].
  change (k < 1) in Hs.
  pose proof (halfExcess_neg W k HW Hs) as HmW.
  pose proof (halfExcess_neg H k HH Hs) as HmH.
  unfold panEnd. cbn [translateX translateY setTranslate].
  fold (maxTranslate W s). fold (maxTranslate H s).
  rewrite (release_value W s k _ Hk), (release_value H s k _ Hk).
  rewrite (maxTranslate_Num W s k Hk), (maxTranslate_Num H s k Hk).
  destruct (translateX s) as [|tx]; [contradiction Htx; reflexivity|].
  destruct (translateY s) as [|ty]; [contradiction Hty; reflexivity|].
  num_red. repeat split; try assumption; apply release_snap; assumption.
Qed.

Lemma pan_release_zoomed_out_witness :
  0 < 100 /\ 0 < 200 /\
  (scale (setTranslate 40 0 (setScale (1 # 2) initial)) < 1)%num /\
  translateX (setTranslate 40 0 (setScale (1 # 2) initial)) <> NaN /\
  translateY (setTranslate 40 0 (setScale (1 # 2) initial)) <> NaN /\
  (translateX (panEnd 100 200 (setTranslate 40 0 (setScale (1 # 2) initial)))
     == maxTranslate 100 (setTranslate 40 0 (setScale (1 # 2) initial)))%num.
Proof.
  assert (HW : 0 < 100) by reflexivity.
  assert (HH : 0 < 200) by reflexivity.
  assert (Hs : (scale (setTranslate 40 0 (setScale (1 # 2) initial)) < 1)%num)
    by reflexivity.
  assert (Htx : translateX (setTranslate 40 0 (setScale (1 # 2) initial))
                <> NaN) by (simpl; discriminate).
  assert (Hty : translateY (setTranslate 40 0 (setScale (1 # 2) initial))
                <> NaN) by (simpl; discriminate).
  split; [exact HW|]. split; [exact HH|]. split; [exact Hs|].
  split; [exact Htx|]. split; [exact Hty|].
  exact (proj1 (proj1
           (pan_release_zoomed_out 100 200
              (setTranslate 40 0 (setScale (1 # 2) initial))
              HW HH Hs Htx Hty))).
Defined.

(** ** Drawing and viewport do not interfere *)

Lemma step_viewport_frame (os : OS) (W H : Q) (s : Canvas) (e : Event) :
  changesViewport e = false ->
  scale (step os W H s e) = scale s /\
  translateX (step os W H s e) = translateX s /\
  translateY (step os W H s e) = translateY s.
Proof.
  intros He. destruct e; try discriminate He; simpl;
    try (repeat split; reflexivity).
  - unfold undo. destruct (pop (paths s)) as [[? ?]|];
      repeat split; reflexivity.
  - unfold redo. destruct (pop (undoStack s)) as [[? ?]|];
      repeat split; reflexivity.
  - unfold drawStart. destruct (isPinching s); repeat split; reflexivity.
  - unfold drawUpdate.
    destruct (isDrawing s), (currentPath s), (isPinching s);
      repeat split; reflexivity.
  - unfold drawEnd. destruct (isDrawing s), (currentPath s);
      repeat split; reflexivity.
Qed.

(** X17. Only a pinch update, a pan update and a pan release move the
    viewport: drawing, undo, redo, tool and background changes, and the
    start and end of the viewport gestures leave scale and translation as
    they are. *)
Theorem viewport_moves_only_by_pinch_and_pan (os : OS) (W H : Q)
    (s : Canvas) (evs : list Event) :
  forallb (fun e => negb (changesViewport e)) evs = true ->
  scale (run os W H s evs) = scale s /\
  translateX (run os W H s evs) = translateX s /\
  translateY (run os W H s evs) = translateY s.
Proof.
  intros Hall.
  apply (run_invariant_on os W H (fun e => negb (changesViewport e))
           (fun s' => scale s' = scale s /\
                      translateX s' = translateX s /\
                      translateY s' = translateY s));
    [|exact Hall|repeat split; reflexivity].
  intros s' e He (Hs & Hx & Hy).
  destruct (step_viewport_frame os W H s' e) as (Hs' & Hx' & Hy').
  - destruct (changesViewport e); [discriminate He | reflexivity].
  - repeat split; congruence.
Qed.

Lemma viewport_moves_only_by_pinch_and_pan_witness :
  forallb (fun e => negb (changesViewport e))
    [PinchStart; DrawStart 1 1; DrawUpdate 2 2; PinchEnd; DrawEnd; Undo;
     PanStart] = true /\
  scale
    (run ios 100 200 (setScale 2 initial)
       [PinchStart; DrawStart 1 1; DrawUpdate 2 2; PinchEnd; DrawEnd; Undo;
        PanStart]) = 2.
Proof.
  split; [reflexivity|].
  exact (proj1 (viewport_moves_only_by_pinch_and_pan ios 100 200
                  (setScale 2 initial)
                  [PinchStart; DrawStart 1 1; DrawUpdate 2 2; PinchEnd;
                   DrawEnd; Undo; PanStart] eq_refl)).
Defined.

(** X18. Zooming and panning never alter the drawing: after any pinch and
    pan events the committed paths, the path in progress, the undone
    paths, the tool and the background are what they were. *)
Theorem viewport_gestures_keep_drawing (os : OS) (W H : Q) (s : Canvas)
    (evs : list Event) :
  forallb isViewportGesture evs = true ->
  paths (run os W H s evs) = paths s /\
  currentPath (run os W H s evs) = currentPath s /\
  undoStack (run os W H s evs) = undoStack s /\
  tool (run os W H s evs) = tool s /\
  backgroundImage (run os W H s evs) = backgroundImage s.
Proof.
  intros Hall.
  apply (run_invariant_on os W H isViewportGesture
           (fun s' => paths s' = paths s /\
                      currentPath s' = currentPath s /\
                      undoStack s' = undoStack s /\
                      tool s' = tool s /\
                      backgroundImage s' = backgroundImage s));
    [|exact Hall|repeat split; reflexivity].
  intros s' e He Hs'. destruct e; try discriminate He; exact Hs'.
Qed.

Lemma viewport_gestures_keep_drawing_witness :
  forallb isViewportGesture
    [PinchStart; PinchUpdate 2; PanStart; PanUpdate 5 5; PanEnd; PinchEnd]
    = true /\
  currentPath
    (run ios 100 200 (drawStart ios 100 200 1 1 oneStroke)
       [PinchStart; PinchUpdate 2; PanStart; PanUpdate 5 5; PanEnd;
        PinchEnd]) =
  currentPath (drawStart ios 100 200 1 1 oneStroke).
Proof.
  split; [reflexivity|].
  exact (proj1 (proj2 (viewport_gestures_keep_drawing ios 100 200
                         (drawStart ios 100 200 1 1 oneStroke)
                         [PinchStart; PinchUpdate 2; PanStart; PanUpdate 5 5;
                          PanEnd; PinchEnd] eq_refl))).
Defined.

(** ** The screen and its toolbar *)

Lemma runScreen_cons (os : OS) (W H : Q) (ds : DrawScreen)
    (e : ScreenEvent) (evs : list ScreenEvent) :
  runScreen os W H ds (e :: evs) =
    runScreen os W H (stepScreen os W H ds e) evs.
Proof. reflexivity. Qed.

Lemma runScreen_app (os : OS) (W H : Q) (ds : DrawScreen)
    (evs1 evs2 : list ScreenEvent) :
  runScreen os W H ds (evs1 ++ evs2) =
    runScreen os W H (runScreen os W H ds evs1) evs2.
Proof. unfold runScreen. apply fold_left_app. Qed.

(** Gestures reach the mounted canvas one by one. *)
Lemma runScreen_touches (os : OS) (W H : Q) (evs : list Event) :
  forall (t : Tool) (c : Canvas),
  runScreen os W H (mkDrawScreen t (Some c)) (map Touch evs) =
    mkDrawScreen t (Some (run os W H c evs)).
Proof.
  induction evs as [|e evs IH]; intros t c; [reflexivity|].
  simpl map. rewrite runScreen_cons. simpl stepScreen.
  unfold onCanvas. simpl. rewrite IH. reflexivity.
Qed.

Lemma step_gesture_tool (os : OS) (W H : Q) (s : Canvas) (e : Event) :
  isGesture e = true -> tool (step os W H s e) = tool s.
Proof.
  intros He. destruct e; try discriminate He; simpl; try reflexivity.
  - unfold drawStart. destruct (isPinching s); reflexivity.
  - unfold drawUpdate.
    destruct (isDrawing s), (currentPath s), (isPinching s); reflexivity.
  - unfold drawEnd. destruct (isDrawing s), (currentPath s); reflexivity.
Qed.

Lemma stepScreen_inSync (os : OS) (W H : Q) (ds : DrawScreen)
    (e : ScreenEvent) :
  touchesGestures e = true -> inSync ds -> inSync (stepScreen os W H ds e).
Proof.
  unfold inSync. intros He Hs.
  destruct ds as [sel [c|]]; simpl in *.
  - destruct e as [t|result| | |g]; simpl.
    + reflexivity.
    + unfold pickImage. destruct (canceled result); simpl; [exact Hs|].
      destruct (assets result); simpl; exact Hs.
    + unfold undo. destruct (pop (paths c)) as [[? ?]|]; exact Hs.
    + unfold redo. destruct (pop (undoStack c)) as [[? ?]|]; exact Hs.
    + rewrite (step_gesture_tool os W H c g He). exact Hs.
  - destruct e as [t|result| | |g]; simpl; try exact I.
    unfold pickImage. destruct (canceled result); simpl; [exact I|].
    destruct (assets result); exact I.
Qed.

(** X21. The toolbar and the canvas agree on the tool: starting in
    agreement (as at mount, both on the pen), after any sequence of
    toolbar presses and gestures the highlighted tool is the one the
    canvas will draw the next stroke with. *)
Theorem toolbar_in_sync (os : OS) (W H : Q) (ds : DrawScreen)
    (evs : list ScreenEvent) :
  forallb touchesGestures evs = true ->
  inSync ds ->
  inSync (runScreen os W H ds evs).
Proof.
  revert ds. induction evs as [|e evs IH]; intros ds Hall Hs.
  - exact Hs.
  - simpl in Hall. apply andb_prop in Hall. destruct Hall as [He Hall].
    rewrite runScreen_cons. apply IH; [exact Hall|].
    apply stepScreen_inSync; assumption.
Qed.

Lemma toolbar_in_sync_witness :
  inSync initialScreen /\
  inSync
    (runScreen ios 100 200 initialScreen
       [PressTool eraser; Touch (DrawStart 1 1); PressTool highlighter;
        Touch DrawEnd; PressUndo]).
Proof.
  assert (Hinit : inSync initialScreen) by reflexivity.
  split; [exact Hinit|].
  exact (toolbar_in_sync ios 100 200 initialScreen
           [PressTool eraser; Touch (DrawStart 1 1); PressTool highlighter;
            Touch DrawEnd; PressUndo] eq_refl Hinit).
Defined.

(** X22. Picking a background: a cancelled pick, and a pick that resolves
    without assets, leave the screen and the canvas as they are; otherwise
    the background of a mounted canvas becomes the uri of the first asset,
    and its paths, path in progress, undone paths and tool are
    untouched. *)
Theorem pickImage_effect (result : ImagePickerResult) (ds : DrawScreen) :
  (canceled result = true \/ assets result = [] -> pickImage result ds = ds) /\
  (forall (first : Asset) (others : list Asset) (c : Canvas),
     canceled result = false ->
     assets result = first :: others ->
     canvasRef ds = Some c ->
     selectedTool (pickImage result ds) = selectedTool ds /\
     exists c',
       canvasRef (pickImage result ds) = Some c' /\
       backgroundImage c' = Some (uri first) /\
       paths c' = paths c /\ currentPath c' = currentPath c /\
       undoStack c' = undoStack c /\ tool c' = tool c).
Proof.
  unfold pickImage. split.
  - intros [Hc|Ha].
    + rewrite Hc. reflexivity.
    + rewrite Ha. destruct (canceled result); reflexivity.
  - intros first others c Hc Ha Href. rewrite Hc, Ha. simpl.
    split; [reflexivity|]. rewrite Href. simpl.
    eexists. split; [reflexivity|]. repeat split.
Qed.

Lemma pickImage_effect_witness :
  pickImage (mkImagePickerResult true []) initialScreen = initialScreen /\
  exists c',
    canvasRef
      (pickImage (mkImagePickerResult false [mkAsset "file:///a.png"])
         initialScreen) = Some c' /\
    backgroundImage c' = Some "file:///a.png".
Proof.
  split.
  - exact (proj1 (pickImage_effect (mkImagePickerResult true [])
                    initialScreen) (or_introl eq_refl)).
  - destruct (proj2 (pickImage_effect
                       (mkImagePickerResult false [mkAsset "file:///a.png"])
                       initialScreen)
                (mkAsset "file:///a.png") [] initial eq_refl eq_refl eq_refl)
      as (_ & c' & Href & Hbg & _).
    exists c'. split; [exact Href | exact Hbg].
Defined.

(** X23. From toolbar to stroke: pressing a tool and then drawing, with
    no pinch active, commits one path in that tool's colour and width,
    made of the converted start point and samples, and leaves the pressed
    tool highlighted. *)
Theorem pressed_tool_styles_next_stroke (os : OS) (W H : Q)
    (sel t : Tool) (c : Canvas) (ex ey : Q) (samples : list (Q * Q)) :
  isPinching c = false ->
  exists c',
    runScreen os W H (mkDrawScreen sel (Some c))
      (PressTool t ::
       map Touch (DrawStart ex ey :: updatesOf samples ++ [DrawEnd])) =
      mkDrawScreen t (Some c') /\
    paths c' =
      paths c ++
      [mkDrawPath
         (map (fun q => getCoordinates os W H c (fst q) (snd q))
            ((ex, ey) :: samples))
         (toolColor t) (toolWidth t) t] /\
    currentPath c' = None.
Proof.
  intros Hpinch. eexists. split.
  - rewrite runScreen_cons.
    change (stepScreen os W H (mkDrawScreen sel (Some c)) (PressTool t))
      with (mkDrawScreen t (Some (setTool t c))).
    rewrite runScreen_touches. reflexivity.
  - rewrite run_cons, run_app. simpl step.
    unfold drawStart. simpl isPinching. rewrite Hpinch. cbv zeta.
    rewrite (run_updates os W H samples _
               (mkDrawPath [getCoordinates os W H c ex ey]
                  (toolColor t) (toolWidth t) t));
      [|reflexivity|exact Hpinch|reflexivity].
    split; reflexivity.
Qed.

Lemma pressed_tool_styles_next_stroke_witness :
  isPinching initial = false /\
  exists c',
    runScreen ios 100 200 initialScreen
      (PressTool highlighter ::
       map Touch (DrawStart 1 1 :: updatesOf [(2, 2)] ++ [DrawEnd])) =
      mkDrawScreen highlighter (Some c') /\
    paths c' =
      [mkDrawPath [mkPoint 1 1; mkPoint 2 2] "rgba(255, 255, 0, 0.5)" 20
         highlighter].
Proof.
  split; [reflexivity|].
  destruct (pressed_tool_styles_next_stroke ios 100 200 pen highlighter
              initial 1 1 [(2, 2)] eq_refl) as (c' & Hrun & Hpaths & _).
  exists c'. split; [exact Hrun | exact Hpaths].
Defined.

(** ** Drawing under a pinch, and what history keeps *)

Lemma run_updates_pinching (os : OS) (W H : Q) (samples : list (Q * Q)) :
  forall s : Canvas,
  isPinching s = true -> run os W H s (updatesOf samples) = s.
Proof.
  induction samples as [|q samples IH]; intros s Hpinch; [reflexivity|].
  unfold updatesOf. simpl map. rewrite run_cons. simpl step.
  fold (updatesOf samples).
  destruct (pinching_suppresses_draw os W H s (fst q) (snd q) Hpinch)
    as [_ Hupd].
  rewrite Hupd. apply IH, Hpinch.
Qed.

(** X24. While a pinch is active the samples of a draw gesture are all
    dropped, however many there are; and a draw gesture that starts,
    samples and ends during the pinch, with no stroke in progress before
    it, leaves the whole state unchanged. *)
Theorem draw_under_pinch_is_ignored (os : OS) (W H : Q) (s : Canvas)
    (ex ey : Q) (samples : list (Q * Q)) :
  isPinching s = true ->
  run os W H s (updatesOf samples) = s /\
  (currentPath s = None ->
   run os W H s (DrawStart ex ey :: updatesOf samples ++ [DrawEnd]) = s).
Proof.
  intros Hpinch. split; [apply run_updates_pinching, Hpinch|].
  intros Hcur. rewrite run_cons, run_app. simpl step.
  destruct (pinching_suppresses_draw os W H s ex ey Hpinch) as [Hstart _].
  rewrite Hstart, (run_updates_pinching os W H samples s Hpinch).
  unfold run. simpl. unfold drawEnd. rewrite Hcur.
  destruct (isDrawing s); reflexivity.
Qed.

Lemma draw_under_pinch_is_ignored_witness :
  isPinching (pinchStart oneStroke) = true /\
  run ios 100 200 (pinchStart oneStroke)
    (DrawStart 1 1 :: updatesOf [(2, 2); (3, 3)] ++ [DrawEnd]) =
  pinchStart oneStroke.
Proof.
  split; [reflexivity|].
  exact (proj2 (draw_under_pinch_is_ignored ios 100 200
                  (pinchStart oneStroke) 1 1 [(2, 2); (3, 3)] eq_refl)
           eq_refl).
Defined.

Lemma step_history_grows (os : OS) (W H : Q) (s : Canvas) (e : Event)
    (p : DrawPath) :
  In p (history s) -> In p (history (step os W H s e)).
Proof.
  intros Hin. destruct (isDrawEnd e) eqn:He.
  - destruct e; try discriminate He. simpl. unfold drawEnd.
    destruct (isDrawing s), (currentPath s); try exact Hin.
    unfold history in *. simpl. apply in_app_or in Hin.
    apply in_or_app. destruct Hin as [Hp|Hu]; [left | right; exact Hu].
    apply in_or_app. left. exact Hp.
  - rewrite step_history; [exact Hin | exact He].
Qed.

(** X25. The canvas never forgets a stroke: a path that is committed or
    undone stays committed or undone after every sequence of events.
    Nothing empties the stack of undone paths, not even a new stroke. *)
Theorem strokes_never_forgotten (os : OS) (W H : Q) (s : Canvas)
    (evs : list Event) (p : DrawPath) :
  In p (history s) -> In p (history (run os W H s evs)).
Proof.
  apply (run_invariant os W H (fun s' => In p (history s'))).
  intros s' e. apply step_history_grows.
Qed.

Lemma strokes_never_forgotten_witness :
  In strokeA (history oneStroke) /\
  In strokeA
    (history
       (run ios 100 200 oneStroke
          [Undo; DrawStart 5 5; DrawEnd; DrawStart 6 6; DrawEnd; Undo])).
Proof.
  assert (Hin : In strokeA (history oneStroke)) by (left; reflexivity).
  split; [exact Hin|].
  exact (strokes_never_forgotten ios 100 200 oneStroke
           [Undo; DrawStart 5 5; DrawEnd; DrawStart 6 6; DrawEnd; Undo]
           strokeA Hin).
Defined.

Lemma clamp_monotone (hi v1 v2 : Q) :
  v1 <= v2 -> Qmax 0 (Qmin v1 hi) <= Qmax 0 (Qmin v2 hi).
Proof.
  intros Hle. apply Q.max_le_compat_l, Q.min_le_compat_r, Hle.
Qed.

Lemma div_monotone (a b k : Q) : 0 < k -> a <= b -> a / k <= b / k.
Proof.
  intros Hk Hle. unfold Qdiv. apply Qmult_le_compat_r; [exact Hle|].
  apply Qlt_le_weak, Qinv_lt_0_compat, Hk.
Qed.

(** One coordinate of the conversion, on rationals. *)
Lemma convert_monotone (extent origin t k e1 e2 : Q) :
  0 < k -> e1 <= e2 ->
  (mathMax 0 (mathMin ((e1 - origin - Num t) / Num k) extent) <=
   mathMax 0 (mathMin ((e2 - origin - Num t) / Num k) extent))%num.
Proof.
  intros Hk Hle. num_red.
  apply clamp_monotone, div_monotone; [exact Hk | lra].
Qed.

(** X26. The conversion keeps the order of screen points: for a positive
    scale and a translation other than [NaN], on every platform and
    whatever the element, a screen point further right is never stored
    further left, and one further down is never stored further up. *)
Theorem getCoordinates_monotone (os : OS) (W H : Q) (s : Canvas)
    (ex1 ey1 ex2 ey2 : Q) :
  (0 < scale s)%num ->
  (translateX s <> NaN ->
   ex1 <= ex2 ->
   (x (getCoordinates os W H s ex1 ey1) <=
    x (getCoordinates os W H s ex2 ey2))%num) /\
  (translateY s <> NaN ->
   ey1 <= ey2 ->
   (y (getCoordinates os W H s ex1 ey1) <=
    y (getCoordinates os W H s ex2 ey2))%num).
Proof.
  intros Hs.
  destruct (scale s) as [|k] eqn:Hk; [contradiction Hs|].
  change (0 < k) in Hs. unfold getCoordinates. rewrite Hk.
  destruct os; try (split; intros _ Hle; exact Hle).
  destruct (svgRef s) as [[| |[r|]]|]; try (split; intros _ Hle; exact Hle).
  cbn [x y]. split.
  - intros Ht Hle.
    destruct (translateX s) as [|t]; [contradiction Ht; reflexivity|].
    apply convert_monotone; assumption.
  - intros Ht Hle.
    destruct (translateY s) as [|t]; [contradiction Ht; reflexivity|].
    apply convert_monotone; assumption.
Qed.

Lemma getCoordinates_monotone_witness :
  (0 < scale (measuredAt (mkRect 10 20) 2))%num /\
  translateX (measuredAt (mkRect 10 20) 2) <> NaN /\
  (x (getCoordinates web 100 200 (measuredAt (mkRect 10 20) 2) 30 0) <=
   x (getCoordinates web 100 200 (measuredAt (mkRect 10 20) 2) 50 0))%num.
Proof.
  assert (Hs : (0 < scale (measuredAt (mkRect 10 20) 2))%num)
    by reflexivity.
  assert (Ht : translateX (measuredAt (mkRect 10 20) 2) <> NaN)
    by (simpl; discriminate).
  split; [exact Hs|]. split; [exact Ht|].
  apply (proj1 (getCoordinates_monotone web 100 200
                  (measuredAt (mkRect 10 20) 2) 30 0 50 0 Hs) Ht).
  unfold Qle; simpl; lia.
Defined.
